(** * based-connect: the command-line front end ([main.c])

    A shallow embedding of [main.c] and the properties of its option
    handling, name handling and session sequencing.

    The file is organised as follows.
    - [CString]: the libc string functions the program calls
      ([strlen], [strcmp], [strncpy], [atoi]).
    - [Getopt]: GNU [getopt_long] on the option tables of [main].
    - The observable world: the trace of external calls and output, and
      the global [optarg].
    - Section [Program]: the functions of [main.c], and the vocabulary of
      their properties.
    - Section [Properties]: the properties.
    - Concrete runs of the program on explicit command lines. *)

From Stdlib Require Import List Ascii String ZArith Lia Bool.
Import ListNotations.
Local Open Scope Z_scope.

(** A C string is modelled by the characters stored at the pointer; the
    terminating NUL is implicit at the end of the list.  As in C, a NUL
    inside the list ends the string early. *)
Definition cstr := list ascii.

(** A string literal of the source. *)
Definition lit (s : string) : cstr := list_ascii_of_string s.
Arguments lit : simpl never.

Definition code (c : ascii) : Z := Z.of_nat (nat_of_ascii c).

(* ================================================================== *)
(** ** libc string functions *)

Module CString.

Definition NUL : ascii := Ascii.zero.

(** The string a [char *] denotes: the characters before the first NUL. *)
Fixpoint c_str (mem : list ascii) : cstr :=
  match mem with
  | [] => []
  | c :: mem' => if (c =? NUL)%char then [] else c :: c_str mem'
  end.

Definition strlen (s : cstr) : nat := List.length (c_str s).

(** [strcmp]: characters are compared as [unsigned char]; the result is
    the difference of the first two characters that differ. *)
Fixpoint strcmp (a b : cstr) : Z :=
  match a, b with
  | [], [] => 0
  | [], d :: _ => 0 - code d
  | c :: _, [] => code c - 0
  | c :: a', d :: b' =>
      if (c =? d)%char
      then if (c =? NUL)%char then 0 else strcmp a' b'
      else code c - code d
  end.

(** The [n] bytes [strncpy] writes: the characters of [src] up to its
    terminator, then NUL padding; no terminator when [src] is longer. *)
Fixpoint strncpy_bytes (src : cstr) (n : nat) : list ascii :=
  match n with
  | O => []
  | S n' =>
      match src with
      | [] => NUL :: strncpy_bytes [] n'
      | c :: src' =>
          if (c =? NUL)%char then NUL :: strncpy_bytes [] n'
          else c :: strncpy_bytes src' n'
      end
  end.

(** [strncpy(dst, src, n)] on an array [dst] of at least [n] bytes: the
    array afterwards. *)
Definition strncpy (dst : list ascii) (src : cstr) (n : nat) : list ascii :=
  strncpy_bytes src n ++ skipn n dst.

Definition isspace (c : ascii) : bool :=
  let k := code c in (k =? 32) || ((9 <=? k) && (k <=? 13)).

Definition isdigit (c : ascii) : bool :=
  let k := code c in (48 <=? k) && (k <=? 57).

Fixpoint skip_space (s : cstr) : cstr :=
  match s with
  | c :: s' => if isspace c then skip_space s' else s
  | [] => []
  end.

Fixpoint digits (acc : Z) (s : cstr) : Z :=
  match s with
  | c :: s' => if isdigit c then digits (acc * 10 + (code c - 48)) s' else acc
  | [] => acc
  end.

Definition LONG_MAX : Z := 2 ^ 63 - 1.
Definition LONG_MIN : Z := - 2 ^ 63.

(** [strtol(s, NULL, 10)]: white space, an optional sign, decimal digits;
    the value saturates at the bounds of [long]. *)
Definition strtol (s : cstr) : Z :=
  let v :=
    match skip_space s with
    | "-"%char :: s' => - digits 0 s'
    | "+"%char :: s' => digits 0 s'
    | s' => digits 0 s'
    end in
  Z.max LONG_MIN (Z.min LONG_MAX v).

(** Conversion of a [long] to [int]: wrap-around to 32 bits. *)
Definition to_int (v : Z) : Z := (v + 2 ^ 31) mod 2 ^ 32 - 2 ^ 31.

(** [atoi(s)] is [(int) strtol(s, NULL, 10)]. *)
Definition atoi (s : cstr) : Z := to_int (strtol s).

End CString.

(* ================================================================== *)
(** ** GNU [getopt_long]

    The behaviour of glibc's [getopt_long] for an option string that
    starts with neither [+] nor [-] nor [:], with [opterr] left at 1.
    By default non-option elements are skipped and moved behind the
    options; when [POSIXLY_CORRECT] is set in the environment the scan
    stops at the first non-option element and [argv] is left as it is.
    In both orderings [--] ends the options, a long option may be
    abbreviated to an unambiguous prefix, and every error is reported by a
    diagnostic and the return value [?].  Option strings with optional
    arguments ([::]) are not covered; [main] has none. *)

Module Getopt.
Import CString.

Inductive has_arg_t := no_argument | required_argument.

(** [struct option]; the [flag] field is [NULL] in every entry of
    [main]'s table, so that [getopt_long] returns [val]. *)
Record long_option := { name : cstr; has_arg : has_arg_t; val : ascii }.

Inductive diag :=
| unrecognized | ambiguous | missing_argument | unexpected_argument.

(** What one call of [getopt_long] yields: an option character with the
    value left in [optarg], or an error. *)
Inductive ret :=
| opt (c : ascii) (arg : option cstr)
| err (d : diag).

Definition has_arg_eqb (x y : has_arg_t) : bool :=
  match x, y with
  | no_argument, no_argument | required_argument, required_argument => true
  | _, _ => false
  end.

(** Lookup of a short option character in the option string. *)
Fixpoint short_lookup (optstring : cstr) (c : ascii) : option has_arg_t :=
  match optstring with
  | [] => None
  | x :: rest =>
      if (x =? c)%char
      then if (c =? ":")%char || (c =? ";")%char then None
           else Some (match rest with
                      | ":"%char :: _ => required_argument
                      | _ => no_argument
                      end)
      else short_lookup rest c
  end.

(** The options of one element [-abc]; [next] is the element that
    follows, if any.  The flag tells whether [next] was used as the
    argument of the last option. *)
Fixpoint cluster (optstring : cstr) (chars : cstr) (next : option cstr)
  : list ret * bool :=
  match chars with
  | [] => ([], false)
  | c :: rest =>
      match short_lookup optstring c with
      | None =>
          let (rs, used) := cluster optstring rest next in
          (err unrecognized :: rs, used)
      | Some no_argument =>
          let (rs, used) := cluster optstring rest next in
          (opt c None :: rs, used)
      | Some required_argument =>
          match rest, next with
          | _ :: _, _ => ([opt c (Some rest)], false)
          | [], Some a => ([opt c (Some a)], true)
          | [], None => ([err missing_argument], false)
          end
      end
  end.

(** [name=value] is split at the first [=]. *)
Fixpoint split_eq (s : cstr) : cstr * option cstr :=
  match s with
  | [] => ([], None)
  | c :: s' =>
      if (c =? "=")%char then ([], Some s')
      else let (n, v) := split_eq s' in (c :: n, v)
  end.

Fixpoint is_prefix (p s : cstr) : bool :=
  match p, s with
  | [], _ => true
  | _ :: _, [] => false
  | c :: p', d :: s' => (c =? d)%char && is_prefix p' s'
  end.

Definition exact_match (nm : cstr) (p : long_option) : bool :=
  is_prefix nm (name p) && (List.length nm =? List.length (name p))%nat.

Definition prefix_match (nm : cstr) (p : long_option) : bool :=
  is_prefix nm (name p).

Definition same_effect (p q : long_option) : bool :=
  has_arg_eqb (has_arg p) (has_arg q) && (val p =? val q)%char.

(** An exact match wins; otherwise the name must be a prefix of the
    names of options that all have the same effect. *)
Definition find_long (longopts : list long_option) (nm : cstr)
  : long_option + diag :=
  match filter (exact_match nm) longopts with
  | p :: _ => inl p
  | [] =>
      match filter (prefix_match nm) longopts with
      | [] => inr unrecognized
      | p :: others =>
          if forallb (same_effect p) others then inl p else inr ambiguous
      end
  end.

(** The option of one element [--body]. *)
Definition long (longopts : list long_option) (body : cstr)
  (next : option cstr) : ret * bool :=
  let (nm, value) := split_eq body in
  match find_long longopts nm with
  | inr d => (err d, false)
  | inl p =>
      match value, has_arg p with
      | Some v, required_argument => (opt (val p) (Some v), false)
      | Some _, no_argument => (err unexpected_argument, false)
      | None, required_argument =>
          match next with
          | Some a => (opt (val p) (Some a), true)
          | None => (err missing_argument, false)
          end
      | None, no_argument => (opt (val p) None, false)
      end
  end.

(** An element that is not an option: it does not start with [-], or it
    is [-] alone. *)
Definition is_nonoption (a : cstr) : bool :=
  match c_str a with
  | c0 :: _ :: _ => negb (c0 =? "-")%char
  | _ => true
  end.

Definition is_dashdash (a : cstr) : bool :=
  match c_str a with
  | [c0; c1] => (c0 =? "-")%char && (c1 =? "-")%char
  | _ => false
  end.

(** The options of an option element: a long option after [--], a
    cluster of short options after [-]. *)
Definition parse_element (optstring : cstr) (longopts : list long_option)
  (a : cstr) (next : option cstr) : list ret * bool :=
  match c_str a with
  | c0 :: c1 :: body =>
      if negb (c0 =? "-")%char then ([], false)
      else if (c1 =? "-")%char
      then let (r, used) := long longopts body next in ([r], used)
      else cluster optstring (c1 :: body) next
  | _ => ([], false)
  end.

(** The ordering of the scan, fixed at the first call of [getopt_long]:
    whether [POSIXLY_CORRECT] is set in the environment of the process. *)
Class Ordering := {
  posixly_correct : bool
}.

(** A complete scan of the elements after [argv[0]]: the successive
    return values, the elements taken as options and option arguments,
    the [--] element if one ended the scan, and the operands. *)
Record scanned := {
  rets : list ret;
  taken : list cstr;
  separator : list cstr;
  operands : list cstr
}.

Definition add_options (rs : list ret) (elems : list cstr) (s : scanned)
  : scanned :=
  {| rets := rs ++ rets s; taken := elems ++ taken s;
     separator := separator s; operands := operands s |}.

Definition add_operand (a : cstr) (s : scanned) : scanned :=
  {| rets := rets s; taken := taken s;
     separator := separator s; operands := a :: operands s |}.

(** The scan, until [getopt_long] returns -1.  An operand is skipped
    (and ends up behind the options) in the default ordering, and ends
    the scan when [POSIXLY_CORRECT] is set; [--] ends it in both. *)
Fixpoint scan {ordering : Ordering} (optstring : cstr)
  (longopts : list long_option) (args : list cstr) : scanned :=
  match args with
  | [] => {| rets := []; taken := []; separator := []; operands := [] |}
  | a :: rest =>
      if is_nonoption a then
        if posixly_correct
        then {| rets := []; taken := []; separator := [];
                operands := a :: rest |}
        else add_operand a (scan optstring longopts rest)
      else if is_dashdash a then
        {| rets := []; taken := []; separator := [a]; operands := rest |}
      else
        let (rs, used) := parse_element optstring longopts a (hd_error rest) in
        match rest with
        | b :: rest' =>
            if used
            then add_options rs [a; b] (scan optstring longopts rest')
            else add_options rs [a] (scan optstring longopts rest)
        | [] => add_options rs [a] (scan optstring longopts rest)
        end
  end.

(** [argv] as a complete scan leaves it: options first, operands last
    (unchanged when [POSIXLY_CORRECT] is set: no operand precedes an
    option that was scanned). *)
Definition permuted (argv : list cstr) (s : scanned) : list cstr :=
  firstn 1 argv ++ taken s ++ separator s ++ operands s.

(** [optind] after a complete scan: the index of the first operand. *)
Definition optind_after (s : scanned) : Z :=
  1 + Z.of_nat (List.length (taken s)) + Z.of_nat (List.length (separator s)).

End Getopt.

(* ================================================================== *)
(** ** The observable world *)

(** Constants of the system headers, kept symbolic. *)
Inductive sys_const :=
| AF_BLUETOOTH | SOCK_STREAM | BTPROTO_RFCOMM
| SOL_SOCKET | SO_SNDTIMEO | SO_RCVTIMEO.

Record timeval := { tv_sec : Z; tv_usec : Z }.

(** The enumerations of [based.h]; [main.c] names their members. *)
Inductive NoiseCancelling := NC_HIGH | NC_LOW | NC_OFF.

Inductive AutoOff :=
| AO_NEVER | AO_5_MIN | AO_20_MIN | AO_40_MIN | AO_60_MIN | AO_180_MIN.

Inductive PromptLanguage :=
| PL_OFF | PL_EN | PL_FR | PL_IT | PL_DE | PL_ES
| PL_PT | PL_ZH | PL_KO | PL_NL | PL_JA | PL_SV.

(** A Bluetooth address: [BDADDR_ANY], or what [str2ba] makes of a string. *)
Inductive bdaddr_t := BDADDR_ANY | str2ba (s : cstr).

Record sockaddr_rc := {
  rc_family : sys_const;
  rc_bdaddr : bdaddr_t;
  rc_channel : Z
}.

(** Calls that leave the program: system calls and the functions of the
    protocol layer ([based.h]).  A [char] array is passed as its contents. *)
Inductive call :=
| socket (domain type protocol : sys_const)
| setsockopt (sock : Z) (level optname : sys_const) (optval : timeval)
| connect (sock : Z) (addr : sockaddr_rc)
| close (sock : Z)
| init_connection (sock : Z)
| set_name (sock : Z) (name : list ascii)
| set_noise_cancelling (sock : Z) (nc : NoiseCancelling)
| set_auto_off (sock : Z) (ao : Z)
| set_prompt_language (sock : Z) (pl : PromptLanguage).

(** Arguments of a [printf] conversion; a [%s] argument may be [NULL]. *)
Inductive fmt_arg := arg_int (n : Z) | arg_str (s : option cstr).

Inductive event :=
| Call (c : call) (result : Z)
| Stdout (fmt : string) (args : list fmt_arg)
| Stderr (fmt : string) (args : list fmt_arg)
| Perror (s : string)
| GetoptDiag (d : Getopt.diag).

(** The trace of events so far, oldest first, and the global [optarg]. *)
Record world := { trace : list event; optarg : option cstr }.

Definition emit (e : event) (w : world) : world :=
  {| trace := trace w ++ [e]; optarg := optarg w |}.

(** Ways for the process to die inside the program. *)
Inductive crash := Aborted | NullDereference | Uninitialised.

Inductive outcome (A : Type) :=
| Done (a : A)
| Crashed (c : crash).
Arguments Done {A} a.
Arguments Crashed {A} c.

(** Computations: state passing over the world, with crashes. *)
Definition M (A : Type) : Type := world -> outcome A * world.

Definition ret {A} (a : A) : M A := fun w => (Done a, w).

Definition bind {A B} (m : M A) (k : A -> M B) : M B :=
  fun w =>
    match m w with
    | (Done a, w') => k a w'
    | (Crashed c, w') => (Crashed c, w')
    end.

Declare Scope prog_scope.
Delimit Scope prog_scope with prog.
Notation "x <- m ;; k" := (bind m (fun x => k))
  (at level 61, m at next level, right associativity) : prog_scope.
Notation "m ;; k" := (bind m (fun _ => k))
  (at level 61, right associativity) : prog_scope.
Local Open Scope prog_scope.

Definition die {A} (c : crash) : M A := fun w => (Crashed c, w).

Definition log (e : event) : M unit := fun w => (Done tt, emit e w).

Definition printf (fmt : string) (args : list fmt_arg) : M unit :=
  log (Stdout fmt args).

Definition fprintf_stderr (fmt : string) (args : list fmt_arg) : M unit :=
  log (Stderr fmt args).

Definition perror (s : string) : M unit := log (Perror s).

Definition get_optarg : M (option cstr) := fun w => (Done (optarg w), w).

Definition set_optarg (a : option cstr) : M unit :=
  fun w => (Done tt, {| trace := trace w; optarg := a |}).

(** Reading through a [char] pointer. *)
Definition deref (p : option cstr) : M cstr :=
  match p with
  | Some s => ret s
  | None => die NullDereference
  end.

(** One call of [getopt_long]: it leaves the option's argument in [optarg]
    and returns the option character, or prints a diagnostic and returns
    [?]. *)
Definition getopt_long (r : Getopt.ret) : M Z :=
  match r with
  | Getopt.opt c a => set_optarg a;; ret (code c)
  | Getopt.err d => set_optarg None;; log (GetoptDiag d);; ret (code "?")
  end.

(** The world at program start. *)
Definition initial : world := {| trace := []; optarg := None |}.

(* ================================================================== *)
(** ** The program *)

(** Constants of [based.h], which [main.c] includes: the maximal name
    length, the RFCOMM channel and the integer value of each member of
    [enum AutoOff]. *)
Class Header := {
  MAX_NAME_LEN : nat;
  BOSE_CHANNEL : Z;
  AutoOff_value : AutoOff -> Z
}.

(** The environment: the result of every external call, which may depend
    on everything that happened before. *)
Class Environment := {
  env : list event -> call -> Z
}.

Section Program.

Import CString.

(** The constants of [based.h], the answers of the environment and the
    ordering of [getopt_long] are parameters of the program. *)
Context {header : Header} {environment : Environment}
  {ordering : Getopt.Ordering}.

Definition invoke (c : call) : M Z :=
  fun w => let r := env (trace w) c in (Done r, emit (Call c r) w).

Definition usage_text : string :=
  "Usage: %s [options] <address>\n" ++
  "\taddress: The Bluetooth address of the headphones.\n" ++
  "Options:\n" ++
  "\t-h, --help\n" ++
  "\t\tPrint the help message.\n" ++
  "\t-n <name>, --name=<name>\n" ++
  "\t\tChange the name of the headphones.\n" ++
  "\t-c <level>, --noise-cancelling=<level>\n" ++
  "\t\tChange the noise cancelling level.\n" ++
  "\t\tlevel: high, low, off\n" ++
  "\t-o <minutes>, --auto-off=<minutes>\n" ++
  "\t\tChange the auto-off time.\n" ++
  "\t\tminutes: never, 5, 20, 40, 50, 180\n" ++
  "\t-l <language>, --prompt-language=<language>\n" ++
  "\t\tChange the voice-prompt language.\n" ++
  "\t\tlanguage: off, en, fr, it, de, es, pt, zh, ko, nl, ja, sv\n".

Definition usage (program : option cstr) : M unit :=
  printf usage_text [arg_str program].

Definition do_set_name (sock : Z) (arg : option cstr) : M Z :=
  let name_buffer := repeat NUL (MAX_NAME_LEN + 1) in
  a <- deref arg;;
  if (MAX_NAME_LEN <? strlen a)%nat then
    fprintf_stderr "Name exceeds %d character maximum. Truncating.\n"
      [arg_int (Z.of_nat MAX_NAME_LEN)];;
    ret 1
  else
    let name_buffer := strncpy name_buffer a MAX_NAME_LEN in
    invoke (set_name sock name_buffer).

(** The comparisons read the global [optarg], not the parameter. *)
Definition do_set_noise_cancelling (sock : Z) (arg : option cstr) : M Z :=
  p <- get_optarg;;
  o <- deref p;;
  if strcmp o (lit "high") =? 0 then invoke (set_noise_cancelling sock NC_HIGH)
  else if strcmp o (lit "low") =? 0 then invoke (set_noise_cancelling sock NC_LOW)
  else if strcmp o (lit "off") =? 0 then invoke (set_noise_cancelling sock NC_OFF)
  else
    fprintf_stderr "Invalid noise cancelling argument: %s\n" [arg_str arg];;
    ret 1.

Definition AutoOff_labels : list AutoOff :=
  [AO_NEVER; AO_5_MIN; AO_20_MIN; AO_40_MIN; AO_60_MIN; AO_180_MIN].

Definition is_case_label (parsed : Z) : bool :=
  existsb (fun m => parsed =? AutoOff_value m) AutoOff_labels.

(** The [switch] has no [break] after [ao = parsed]: control runs on into
    the [default] branch.  The [switch] is left either by [return 1] or
    with a value in [ao]. *)
Definition do_set_auto_off (sock : Z) (arg : option cstr) : M Z :=
  let ao : option Z := None in
  a <- deref arg;;
  let parsed := atoi a in
  sw <- (let ao := if is_case_label parsed then Some parsed else ao in
         if strcmp a (lit "never") =? 0
         then ret (inl (Some (AutoOff_value AO_NEVER)))
         else
           fprintf_stderr "Invalid auto-off argument: %s\n" [arg_str arg];;
           ret (inr 1));;
  match sw with
  | inr status => ret status
  | inl (Some ao) => invoke (set_auto_off sock ao)
  | inl None => die Uninitialised
  end.

(** The comparisons read the global [optarg], not the parameter. *)
Definition do_set_prompt_language (sock : Z) (arg : option cstr) : M Z :=
  p <- get_optarg;;
  o <- deref p;;
  if strcmp o (lit "off") =? 0 then invoke (set_prompt_language sock PL_OFF)
  else if strcmp o (lit "en") =? 0 then invoke (set_prompt_language sock PL_EN)
  else if strcmp o (lit "fr") =? 0 then invoke (set_prompt_language sock PL_FR)
  else if strcmp o (lit "it") =? 0 then invoke (set_prompt_language sock PL_IT)
  else if strcmp o (lit "de") =? 0 then invoke (set_prompt_language sock PL_DE)
  else if strcmp o (lit "es") =? 0 then invoke (set_prompt_language sock PL_ES)
  else if strcmp o (lit "pt") =? 0 then invoke (set_prompt_language sock PL_PT)
  else if strcmp o (lit "zh") =? 0 then invoke (set_prompt_language sock PL_ZH)
  else if strcmp o (lit "ko") =? 0 then invoke (set_prompt_language sock PL_KO)
  else if strcmp o (lit "nl") =? 0 then invoke (set_prompt_language sock PL_NL)
  else if strcmp o (lit "ja") =? 0 then invoke (set_prompt_language sock PL_JA)
  else if strcmp o (lit "sv") =? 0 then invoke (set_prompt_language sock PL_SV)
  else
    fprintf_stderr "Invalid prompt language argument: %s\n" [arg_str arg];;
    ret 1.

Definition short_opt : cstr := lit "hn:c:o:l:".

Definition long_opt : list Getopt.long_option :=
  [ {| Getopt.name := lit "help";
       Getopt.has_arg := Getopt.no_argument; Getopt.val := "h" |};
    {| Getopt.name := lit "name";
       Getopt.has_arg := Getopt.required_argument; Getopt.val := "n" |};
    {| Getopt.name := lit "noise-cancelling";
       Getopt.has_arg := Getopt.required_argument; Getopt.val := "c" |};
    {| Getopt.name := lit "auto-off";
       Getopt.has_arg := Getopt.required_argument; Getopt.val := "o" |};
    {| Getopt.name := lit "prompt-language";
       Getopt.has_arg := Getopt.required_argument; Getopt.val := "l" |} ].

Definition send_timeout : timeval := {| tv_sec := 5; tv_usec := 0 |}.
Definition recieve_timeout : timeval := {| tv_sec := 1; tv_usec := 0 |}.

(** The first loop of [main] over the values [getopt_long] returns:
    [Some status] when [main] returns from inside the loop. *)
Fixpoint verify_loop (program : option cstr) (rs : list Getopt.ret)
  : M (option Z) :=
  match rs with
  | [] => ret None
  | r :: rs' =>
      opt <- getopt_long r;;
      if negb (0 <? opt) then ret None
      else if opt =? code "h" then usage program;; ret (Some 0)
      else if opt =? code "?" then ret (Some 1)
      else verify_loop program rs'
  end.

(** The second loop of [main]: the final [status]. *)
Fixpoint settings_loop (sock : Z) (rs : list Getopt.ret) (status : Z)
  : M Z :=
  match rs with
  | [] => ret status
  | r :: rs' =>
      opt <- getopt_long r;;
      if negb (0 <? opt) then ret status
      else if negb (status =? 0) then ret status
      else if opt =? code "n" then
        a <- get_optarg;;
        status <- do_set_name sock a;;
        settings_loop sock rs' status
      else if opt =? code "c" then
        a <- get_optarg;;
        status <- do_set_noise_cancelling sock a;;
        settings_loop sock rs' status
      else if opt =? code "o" then
        a <- get_optarg;;
        status <- do_set_auto_off sock a;;
        settings_loop sock rs' status
      else if opt =? code "l" then
        a <- get_optarg;;
        status <- do_set_prompt_language sock a;;
        settings_loop sock rs' status
      else die Aborted
  end.

Definition main (argv : list cstr) : M Z :=
  let argc := Z.of_nat (List.length argv) in
  sock <- invoke (socket AF_BLUETOOTH SOCK_STREAM BTPROTO_RFCOMM);;
  r <- invoke (setsockopt sock SOL_SOCKET SO_SNDTIMEO send_timeout);;
  if r <? 0 then perror "Could not set socket send timeout";; ret 1
  else
  r <- invoke (setsockopt sock SOL_SOCKET SO_RCVTIMEO recieve_timeout);;
  if r <? 0 then perror "Could not set socket recieve timeout";; ret 1
  else
  (* Find connection address and verify options *)
  let scanned := Getopt.scan short_opt long_opt (tl argv) in
  returned <- verify_loop (hd_error argv) (Getopt.rets scanned);;
  match returned with
  | Some status => ret status
  | None =>
      let argv := Getopt.permuted argv scanned in
      let optind := Getopt.optind_after scanned in
      if negb (argc - 1 =? optind) then
        fprintf_stderr
          (if argc <=? optind
           then "An address argument must be given.\n"
           else "Only one address argument may be given.\n") [];;
        usage (hd_error argv);;
        ret 1
      else
        a <- deref (nth_error argv (Z.to_nat optind));;
        let address := {| rc_family := AF_BLUETOOTH;
                          rc_bdaddr := str2ba a;
                          rc_channel := BOSE_CHANNEL |} in
        r <- invoke (connect sock address);;
        if negb (r =? 0) then
          perror "Could not connect to Bluetooth device";; ret 1
        else
          status <- invoke (init_connection sock);;
          (* optind = 1: the options are scanned again *)
          let rescanned := Getopt.scan short_opt long_opt (tl argv) in
          status <- settings_loop sock (Getopt.rets rescanned) status;;
          (if status <? 0 then perror "Error trying to change setting"
           else ret tt);;
          invoke (close sock);;
          ret status
  end.

(** Running the program from the start. *)
Definition run (argv : list cstr) : outcome Z * world := main argv initial.

(* ---------------------------------------------------------------- *)
(** *** Vocabulary of the properties *)

Fixpoint cstr_eqb (a b : cstr) : bool :=
  match a, b with
  | [], [] => true
  | c :: a', d :: b' => (c =? d)%char && cstr_eqb a' b'
  | _, _ => false
  end.

(** The closed enumerations of the settings, as the documentation gives
    them: argument string and enumeration member. *)
Definition nc_table : list (string * NoiseCancelling) :=
  [("high", NC_HIGH); ("low", NC_LOW); ("off", NC_OFF)]%string.

Definition ao_table : list (string * AutoOff) :=
  [("never", AO_NEVER); ("5", AO_5_MIN); ("20", AO_20_MIN);
   ("40", AO_40_MIN); ("60", AO_60_MIN); ("180", AO_180_MIN)]%string.

Definition pl_table : list (string * PromptLanguage) :=
  [("off", PL_OFF); ("en", PL_EN); ("fr", PL_FR); ("it", PL_IT);
   ("de", PL_DE); ("es", PL_ES); ("pt", PL_PT); ("zh", PL_ZH);
   ("ko", PL_KO); ("nl", PL_NL); ("ja", PL_JA); ("sv", PL_SV)]%string.

Fixpoint lookup {A} (s : cstr) (table : list (string * A)) : option A :=
  match table with
  | [] => None
  | (k, v) :: table' => if cstr_eqb s (lit k) then Some v else lookup s table'
  end.

(** The array [do_set_name] hands to [set_name] for a name that fits. *)
Definition name_array (a : cstr) : list ascii :=
  c_str a ++ repeat NUL (MAX_NAME_LEN + 1 - strlen a).

(** The setter call an option of the command line leads to, if the
    program accepts its argument: a name of at most [MAX_NAME_LEN]
    characters, a level of [nc_table], the auto-off time [never], a
    language of [pl_table]. *)
Definition setter_call (sock : Z) (r : Getopt.ret) : option call :=
  match r with
  | Getopt.opt letter (Some a) =>
      if (letter =? "n")%char then
        if (strlen a <=? MAX_NAME_LEN)%nat
        then Some (set_name sock (name_array a)) else None
      else if (letter =? "c")%char then
        option_map (set_noise_cancelling sock) (lookup (c_str a) nc_table)
      else if (letter =? "o")%char then
        if cstr_eqb (c_str a) (lit "never")
        then Some (set_auto_off sock (AutoOff_value AO_NEVER)) else None
      else if (letter =? "l")%char then
        option_map (set_prompt_language sock) (lookup (c_str a) pl_table)
      else None
  | _ => None
  end.

(** An option whose argument lies outside the closed enumeration of its
    setting. *)
Definition invalid_setting (r : Getopt.ret) : bool :=
  match r with
  | Getopt.opt letter (Some a) =>
      if (letter =? "c")%char then
        match lookup (c_str a) nc_table with Some _ => false | None => true end
      else if (letter =? "o")%char then
        match lookup (c_str a) ao_table with Some _ => false | None => true end
      else if (letter =? "l")%char then
        match lookup (c_str a) pl_table with Some _ => false | None => true end
      else false
  | _ => false
  end.

Definition is_setter (c : call) : bool :=
  match c with
  | set_name _ _ | set_noise_cancelling _ _
  | set_auto_off _ _ | set_prompt_language _ _ => true
  | _ => false
  end.

Definition is_init (c : call) : bool :=
  match c with init_connection _ => true | _ => false end.

(** Protocol operations: the handshake and the setters. *)
Definition is_protocol (c : call) : bool := is_init c || is_setter c.

Definition is_setsockopt (c : call) : bool :=
  match c with setsockopt _ _ _ _ => true | _ => false end.

Definition is_close (c : call) : bool :=
  match c with close _ => true | _ => false end.

(** Does the trace hold a call of the given kind? *)
Definition calls (kind : call -> bool) (t : list event) : bool :=
  existsb (fun e => match e with Call c _ => kind c | _ => false end) t.

(** The setter calls of a trace, in order. *)
Fixpoint setter_calls (t : list event) : list call :=
  match t with
  | [] => []
  | Call c _ :: t' => if is_setter c then c :: setter_calls t' else setter_calls t'
  | _ :: t' => setter_calls t'
  end.

(** The [setsockopt] calls of a trace, in order. *)
Fixpoint setsockopt_calls (t : list event) : list call :=
  match t with
  | [] => []
  | Call c _ :: t' =>
      if is_setsockopt c then c :: setsockopt_calls t' else setsockopt_calls t'
  | _ :: t' => setsockopt_calls t'
  end.

(** After the first protocol operation with a nonzero result, the trace
    holds no setter call. *)
Fixpoint stops_at_failure (t : list event) : bool :=
  match t with
  | [] => true
  | Call c z :: t' =>
      if is_protocol c && negb (z =? 0)
      then negb (calls is_setter t')
      else stops_at_failure t'
  | _ :: t' => stops_at_failure t'
  end.

(** The message an option is rejected with. *)
Definition rejection (r : Getopt.ret) : event :=
  match r with
  | Getopt.opt letter a =>
      if (letter =? "n")%char then
        Stderr "Name exceeds %d character maximum. Truncating.\n"
          [arg_int (Z.of_nat MAX_NAME_LEN)]
      else if (letter =? "c")%char then
        Stderr "Invalid noise cancelling argument: %s\n" [arg_str a]
      else if (letter =? "o")%char then
        Stderr "Invalid auto-off argument: %s\n" [arg_str a]
      else
        Stderr "Invalid prompt language argument: %s\n" [arg_str a]
  | Getopt.err d => GetoptDiag d
  end.

(** The events of the second loop of [main] over the options [rs], and
    the status it ends with: setters are called for the options in turn
    while they succeed; a setter that fails, or an argument that is
    rejected, ends the sequence. *)
Inductive session (sock : Z) : list Getopt.ret -> list event -> Z -> Prop :=
| session_done :
    session sock [] [] 0
| session_applied r rs c t status :
    setter_call sock r = Some c ->
    session sock rs t status ->
    session sock (r :: rs) (Call c 0 :: t) status
| session_failed r rs c status :
    setter_call sock r = Some c ->
    status <> 0 ->
    session sock (r :: rs) [Call c status] status
| session_rejected r rs :
    setter_call sock r = None ->
    session sock (r :: rs) [rejection r] 1.

(** Options that pass the first loop of [main]: no error, no [-h]. *)
Definition passes (r : Getopt.ret) : bool :=
  match r with
  | Getopt.opt c _ => negb (c =? "h")%char
  | Getopt.err _ => false
  end.

(** What [getopt_long] can return for the tables of [main]. *)
Definition from_tables (r : Getopt.ret) : Prop :=
  match r with
  | Getopt.err _ => True
  | Getopt.opt c None => c = "h"%char
  | Getopt.opt c (Some _) => In c ["n"; "c"; "o"; "l"]%char
  end.

Definition no_error (r : Getopt.ret) : bool :=
  match r with Getopt.err _ => false | _ => true end.

(** The world after [getopt_long] stored an argument. *)
Definition with_optarg (a : option cstr) (w : world) : world :=
  {| trace := trace w; optarg := a |}.

(** A [connect] call that succeeded. *)
Definition is_connected (e : event) : bool :=
  match e with
  | Call (connect _ _) z => z =? 0
  | _ => false
  end.

(** Does the trace hold a successful [connect]? *)
Definition connected (t : list event) : bool := existsb is_connected t.

(** Events of the exits of [main] before the session: output only, and
    possibly a [connect] that failed. *)
Definition before_session (e : event) : bool :=
  match e with
  | Call (connect _ _) z => negb (z =? 0)
  | Call _ _ => false
  | _ => true
  end.

(** The reasons for which [main] returns before the session, read off
    the command line and the trace: a timeout could not be set, an option
    did not pass the first loop, the operands are not exactly one, or
    [connect] failed. *)
Definition ends_early (argv : list cstr) (t : list event) : Prop :=
  let s := Getopt.scan short_opt long_opt (tl argv) in
  (exists c z, In (Call c z) t /\ is_setsockopt c = true /\ z < 0)
  \/ forallb passes (Getopt.rets s) = false
  \/ List.length (Getopt.operands s) <> 1%nat
  \/ (exists sock address z,
        In (Call (connect sock address) z) t /\ z <> 0).

(** The three calls every run starts with. *)
Definition timeouts (sock r1 r2 : Z) : list event :=
  [Call (socket AF_BLUETOOTH SOCK_STREAM BTPROTO_RFCOMM) sock;
   Call (setsockopt sock SOL_SOCKET SO_SNDTIMEO send_timeout) r1;
   Call (setsockopt sock SOL_SOCKET SO_RCVTIMEO recieve_timeout) r2].

(** The runs of [main], by exit status and trace: the send timeout could
    not be set; [main] returned before the session; [main] connected and
    ran the session. *)
Inductive run_shape (argv : list cstr) : Z -> list event -> Prop :=
| shape_no_send_timeout sock r1 :
    r1 < 0 ->
    run_shape argv 1
      [Call (socket AF_BLUETOOTH SOCK_STREAM BTPROTO_RFCOMM) sock;
       Call (setsockopt sock SOL_SOCKET SO_SNDTIMEO send_timeout) r1;
       Perror "Could not set socket send timeout"]
| shape_early sock r1 r2 early status :
    0 <= r1 ->
    forallb before_session early = true ->
    ends_early argv (timeouts sock r1 r2 ++ early) ->
    run_shape argv status (timeouts sock r1 r2 ++ early)
| shape_session sock r1 r2 addr st S status rc :
    0 <= r1 -> 0 <= r2 ->
    (if st =? 0
     then session sock
            (Getopt.rets (Getopt.scan short_opt long_opt (tl argv))) S status
     else S = [] /\ status = st) ->
    run_shape argv status
      (timeouts sock r1 r2
       ++ [Call (connect sock addr) 0; Call (init_connection sock) st]
       ++ S
       ++ (if status <? 0
           then [Perror "Error trying to change setting"] else [])
       ++ [Call (close sock) rc]).


(** The session with a headset that accepts every request: the setter of
    each option is called with result 0, up to the first option whose
    argument the program rejects, which ends the session with status 1. *)
Fixpoint expected_session (sock : Z) (rs : list Getopt.ret)
  : list event * Z :=
  match rs with
  | [] => ([], 0)
  | r :: rs' =>
      match setter_call sock r with
      | Some c =>
          let (t, status) := expected_session sock rs' in
          (Call c 0 :: t, status)
      | None => ([rejection r], 1)
      end
  end.

(** The address [main] connects to for the operand [a]. *)
Definition address_of (a : cstr) : sockaddr_rc :=
  {| rc_family := AF_BLUETOOTH;
     rc_bdaddr := str2ba a;
     rc_channel := BOSE_CHANNEL |}.

(** The four spellings of an option with its value on the command line:
    [-nVALUE], [-n VALUE], [--name=VALUE] and [--name VALUE]. *)
Definition spellings (p : Getopt.long_option) (value : cstr)
  : list (list cstr) :=
  [ [("-" :: Getopt.val p :: value)%char];
    [["-"; Getopt.val p]%char; value];
    [("-" :: "-" :: Getopt.name p ++ "=" :: value)%char];
    [("-" :: "-" :: Getopt.name p)%char; value] ].

End Program.

(* ================================================================== *)
(** ** Sample values *)

(** Sample values for the constants of [based.h]. *)
Definition sample_header : Header :=
  {| MAX_NAME_LEN := 31;
     BOSE_CHANNEL := 8;
     AutoOff_value := fun m =>
       match m with
       | AO_NEVER => 0
       | AO_5_MIN => 5
       | AO_20_MIN => 20
       | AO_40_MIN => 40
       | AO_60_MIN => 60
       | AO_180_MIN => 180
       end |}.

(** A headset that accepts every request: every call returns 0, and
    [socket] returns the descriptor 3. *)
Definition obliging : Environment :=
  {| env := fun _ c =>
       match c with
       | socket _ _ _ => 3
       | _ => 0
       end |}.

(** A headset whose handshake succeeds and whose setters all fail with -1. *)
Definition stubborn : Environment :=
  {| env := fun _ c =>
       match c with
       | socket _ _ _ => 3
       | set_name _ _ | set_noise_cancelling _ _
       | set_auto_off _ _ | set_prompt_language _ _ => -1
       | _ => 0
       end |}.

(** The two orderings of [getopt_long]: [POSIXLY_CORRECT] unset, and set. *)
Definition permuting : Getopt.Ordering := {| Getopt.posixly_correct := false |}.
Definition in_order : Getopt.Ordering := {| Getopt.posixly_correct := true |}.

(** The outcome and the trace of a run on a command line, with
    [POSIXLY_CORRECT] unset. *)
Definition sample_run (e : Environment) (argv : list string)
  : outcome Z * list event :=
  let (o, w) := @run sample_header e permuting (map lit argv) in (o, trace w).

(** The same with [POSIXLY_CORRECT] set. *)
Definition sample_run_in_order (e : Environment) (argv : list string)
  : outcome Z * list event :=
  let (o, w) := @run sample_header e in_order (map lit argv) in (o, trace w).

Definition sample_address : sockaddr_rc :=
  {| rc_family := AF_BLUETOOTH;
     rc_bdaddr := str2ba (lit "00:11:22:33:44:55");
     rc_channel := 8 |}.

(** The events up to a successful handshake on descriptor 3. *)
Definition sample_start : list event :=
  timeouts 3 0 0
  ++ [Call (connect 3 sample_address) 0; Call (init_connection 3) 0].

(** A name of 32 characters and a name that fits. *)
Definition long_name : cstr := lit "ABCDEFGHIJKLMNOPQRSTUVWXYZ012345".
Definition short_name : cstr := lit "Living room".

(** The world in which a handler is called: [getopt_long] has left the
    argument in [optarg]. *)
Definition after_getopt (arg : cstr) : world :=
  {| trace := []; optarg := Some arg |}.

(** A command line with a valid level, an invalid language and a valid
    auto-off time. *)
Definition bogus_language_argv : list cstr :=
  map lit ["based-connect"; "-c"; "high"; "-l"; "xx"; "-o"; "never";
           "00:11:22:33:44:55"]%string.


(** A headset that cannot be reached: [connect] fails. *)
Definition unreachable : Environment :=
  {| env := fun _ c =>
       match c with
       | socket _ _ _ => 3
       | connect _ _ => -1
       | _ => 0
       end |}.

(** A headset that does not answer the handshake. *)
Definition mute : Environment :=
  {| env := fun _ c =>
       match c with
       | socket _ _ _ => 3
       | init_connection _ => -1
       | _ => 0
       end |}.

(** The world a run ends in. *)
Definition final_world (e : Environment) (argv : list cstr) : world :=
  snd (@run sample_header e permuting argv).

(** A level and a name, then the address. *)
Definition settings_argv : list cstr :=
  map lit ["based-connect"; "-c"; "low"; "-n"; "Bob";
           "00:11:22:33:44:55"]%string.

(** An invalid level, the help option, an unknown option, no address. *)
Definition help_argv : list cstr :=
  map lit ["based-connect"; "-c"; "bogus"; "--help"; "-x"]%string.

(** A level, an ambiguous abbreviation, the help option, the address. *)
Definition ambiguous_argv : list cstr :=
  map lit ["based-connect"; "-c"; "low"; "--n=x"; "-h";
           "00:11:22:33:44:55"]%string.

(** Two addresses around an option. *)
Definition two_addresses_argv : list cstr :=
  map lit ["based-connect"; "00:11:22:33:44:55"; "-c"; "low";
           "66:77:88:99:AA:BB"]%string.

(* ================================================================== *)
(** ** Properties *)

Section Properties.

Import CString.

Context {header : Header} {environment : Environment}
  {ordering : Getopt.Ordering}.

(* ---------------------------------------------------------------- *)
(** *** Facts about the string functions *)

Lemma code_inj c d : code c = code d -> c = d.
Proof.
  unfold code. intros H. apply Nat2Z.inj in H.
  rewrite <- (ascii_nat_embedding c), <- (ascii_nat_embedding d).
  now rewrite H.
Qed.

Lemma code_NUL c : code c = 0 <-> c = NUL.
Proof.
  split; intros H.
  - apply code_inj. exact H.
  - now subst c.
Qed.

Lemma cstr_eqb_eq a b : cstr_eqb a b = true <-> a = b.
Proof.
  revert b. induction a as [|c a IH]; intros [|d b]; simpl;
    try (split; congruence).
  rewrite andb_true_iff, Ascii.eqb_eq, IH. split.
  - intros [-> ->]. reflexivity.
  - intros H. injection H as -> ->. split; reflexivity.
Qed.

Lemma cstr_eqb_refl a : cstr_eqb a a = true.
Proof. now apply cstr_eqb_eq. Qed.

(** A list without NUL is the string it denotes. *)
Lemma c_str_no_NUL s : ~ In NUL s -> c_str s = s.
Proof.
  induction s as [|c s IH]; simpl; [reflexivity|]. intros H.
  destruct (Ascii.eqb_spec c NUL) as [->|_]; [exfalso; apply H; now left|].
  rewrite IH; [reflexivity|]. intros Hin. apply H. now right.
Qed.

(** [strcmp] returns 0 exactly on pointers to equal strings. *)
Lemma strcmp_0 a b : strcmp a b = 0 <-> c_str a = c_str b.
Proof.
  revert b. induction a as [|c a IH]; intros [|d b]; simpl.
  - tauto.
  - destruct (Ascii.eqb_spec d NUL) as [->|Hd]; [tauto|].
    split; [|discriminate].
    intros H. exfalso. apply Hd, code_NUL. lia.
  - destruct (Ascii.eqb_spec c NUL) as [->|Hc]; [tauto|].
    split; [|discriminate].
    intros H. exfalso. apply Hc, code_NUL. lia.
  - destruct (Ascii.eqb_spec c d) as [->|Hcd].
    + destruct (Ascii.eqb_spec d NUL); [tauto|].
      rewrite IH. split; [congruence|]. intros H. now injection H.
    + split.
      * intros H. exfalso. apply Hcd, code_inj. lia.
      * destruct (Ascii.eqb_spec c NUL), (Ascii.eqb_spec d NUL);
          intros H; try congruence.
  Qed.

Lemma strcmp_eqb a (k : string) :
  c_str (lit k) = lit k ->
  (strcmp a (lit k) =? 0) = cstr_eqb (c_str a) (lit k).
Proof.
  intros Hk.
  destruct (cstr_eqb (c_str a) (lit k)) eqn:E.
  - apply cstr_eqb_eq in E. apply Z.eqb_eq, strcmp_0. congruence.
  - apply Z.eqb_neq. intros H. apply strcmp_0 in H.
    rewrite Hk in H. rewrite H, cstr_eqb_refl in E. discriminate.
Qed.

Lemma strncpy_bytes_nil n : strncpy_bytes [] n = repeat NUL n.
Proof. induction n as [|n IH]; simpl; congruence. Qed.

(** A string that fits is copied whole and padded with NULs. *)
Lemma strncpy_bytes_fits s n :
  (strlen s <= n)%nat ->
  strncpy_bytes s n = c_str s ++ repeat NUL (n - strlen s).
Proof.
  unfold strlen. revert n. induction s as [|c s IH]; intros n Hn.
  - simpl. rewrite Nat.sub_0_r. apply strncpy_bytes_nil.
  - simpl in *. destruct n as [|n].
    + destruct (c =? NUL)%char; [reflexivity|]. simpl in Hn. lia.
    + simpl. destruct (c =? NUL)%char.
      * simpl. now rewrite strncpy_bytes_nil.
      * simpl in *. rewrite IH by lia. reflexivity.
Qed.

Lemma skipn_repeat_add {A} (x : A) n m :
  skipn n (repeat x (n + m)) = repeat x m.
Proof. induction n as [|n IH]; simpl; congruence. Qed.

(** The name array after [strncpy] into the zeroed buffer. *)
Lemma name_buffer_fits a :
  (strlen a <= MAX_NAME_LEN)%nat ->
  strncpy (repeat NUL (MAX_NAME_LEN + 1)) a MAX_NAME_LEN = name_array a.
Proof.
  intros H. unfold strncpy, name_array.
  rewrite strncpy_bytes_fits by exact H.
  rewrite skipn_repeat_add, <- app_assoc, <- repeat_app.
  do 2 f_equal. lia.
Qed.

Lemma c_str_app_NUL s t : c_str (c_str s ++ NUL :: t) = c_str s.
Proof.
  induction s as [|c s IH]; simpl; [reflexivity|].
  destruct (c =? NUL)%char eqn:E; simpl; [reflexivity|].
  now rewrite E, IH.
Qed.

Lemma name_array_c_str a :
  (strlen a <= MAX_NAME_LEN)%nat -> c_str (name_array a) = c_str a.
Proof.
  intros H. unfold name_array.
  replace (MAX_NAME_LEN + 1 - strlen a)%nat
    with (S (MAX_NAME_LEN - strlen a)) by lia.
  apply c_str_app_NUL.
Qed.

Lemma name_array_length a :
  (strlen a <= MAX_NAME_LEN)%nat ->
  List.length (name_array a) = (MAX_NAME_LEN + 1)%nat.
Proof.
  intros H. unfold name_array, strlen in *.
  rewrite length_app, repeat_length. lia.
Qed.

(* ---------------------------------------------------------------- *)
(** *** The four argument handlers *)

Ltac run_prog :=
  unfold bind, ret, die, log, printf, fprintf_stderr, perror,
    get_optarg, set_optarg, deref; simpl.

Ltac literal_tests :=
  repeat (rewrite strcmp_eqb by reflexivity).

Lemma do_set_name_too_long sock a w :
  (MAX_NAME_LEN < strlen a)%nat ->
  do_set_name sock (Some a) w =
    (Done 1,
     emit (Stderr "Name exceeds %d character maximum. Truncating.\n"
             [arg_int (Z.of_nat MAX_NAME_LEN)]) w).
Proof.
  intros H. unfold do_set_name. run_prog.
  apply Nat.ltb_lt in H. now rewrite H.
Qed.

Lemma do_set_name_fits sock a w :
  (strlen a <= MAX_NAME_LEN)%nat ->
  do_set_name sock (Some a) w = invoke (set_name sock (name_array a)) w.
Proof.
  intros H. unfold do_set_name. run_prog.
  assert (E : (MAX_NAME_LEN <? strlen a)%nat = false)
    by (apply Nat.ltb_ge; exact H).
  rewrite E. now rewrite name_buffer_fits.
Qed.

Lemma do_set_noise_cancelling_table sock arg o w :
  optarg w = Some o ->
  do_set_noise_cancelling sock arg w =
    match lookup (c_str o) nc_table with
    | Some nc => invoke (set_noise_cancelling sock nc) w
    | None =>
        (Done 1,
         emit (Stderr "Invalid noise cancelling argument: %s\n"
                 [arg_str arg]) w)
    end.
Proof.
  intros H. unfold do_set_noise_cancelling. run_prog. rewrite H. simpl.
  literal_tests.
  repeat (match goal with
          | |- context [cstr_eqb ?x ?y] => destruct (cstr_eqb x y)
          end; [reflexivity|]).
  reflexivity.
Qed.

Lemma do_set_prompt_language_table sock arg o w :
  optarg w = Some o ->
  do_set_prompt_language sock arg w =
    match lookup (c_str o) pl_table with
    | Some pl => invoke (set_prompt_language sock pl) w
    | None =>
        (Done 1,
         emit (Stderr "Invalid prompt language argument: %s\n"
                 [arg_str arg]) w)
    end.
Proof.
  intros H. unfold do_set_prompt_language. run_prog. rewrite H. simpl.
  literal_tests.
  repeat (match goal with
          | |- context [cstr_eqb ?x ?y] => destruct (cstr_eqb x y)
          end; [reflexivity|]).
  reflexivity.
Qed.

(** Whatever [atoi] makes of the argument, only [never] gets through. *)
Lemma do_set_auto_off_never_only sock a w :
  do_set_auto_off sock (Some a) w =
    if cstr_eqb (c_str a) (lit "never")
    then invoke (set_auto_off sock (AutoOff_value AO_NEVER)) w
    else (Done 1,
          emit (Stderr "Invalid auto-off argument: %s\n"
                  [arg_str (Some a)]) w).
Proof.
  unfold do_set_auto_off. run_prog. literal_tests.
  destruct (cstr_eqb (c_str a) (lit "never")); reflexivity.
Qed.

(* ---------------------------------------------------------------- *)
(** *** Facts about the option scan *)

(** Induction for functions that consume one or two elements a step. *)
Lemma list_ind_pairs {A} (P : list A -> Prop) :
  P [] ->
  (forall a l, P l -> (forall b l', l = b :: l' -> P l') -> P (a :: l)) ->
  forall l, P l.
Proof.
  intros Hnil Hcons l.
  assert (H : P l /\ (forall b l', l = b :: l' -> P l')).
  { induction l as [|a l [IH1 IH2]].
    - split; [exact Hnil|]. intros b l' E. discriminate.
    - split; [now apply Hcons|].
      intros b l' E. injection E as _ <-. exact IH1. }
  exact (proj1 H).
Qed.

Ltac fields :=
  cbn [app Getopt.rets Getopt.taken Getopt.separator Getopt.operands
       Getopt.add_options Getopt.add_operand] in *.

Section Scan.

Variable optstring : cstr.
Variable longopts : list Getopt.long_option.

Lemma cluster_next_irrelevant chars next rs :
  Getopt.cluster optstring chars next = (rs, false) ->
  forallb no_error rs = true ->
  forall next', Getopt.cluster optstring chars next' = (rs, false).
Proof.
  revert rs. induction chars as [|c rest IH]; intros rs; simpl.
  - intros H _ next'. exact H.
  - destruct (Getopt.short_lookup optstring c) as [[|]|].
    + destruct (Getopt.cluster optstring rest next) as [rs0 u] eqn:E.
      intros H Hrs next'. injection H as <- ->. simpl in Hrs.
      now rewrite (IH rs0 eq_refl Hrs next').
    + destruct rest as [|c' rest'].
      * destruct next as [a|]; intros H Hrs; injection H as <-;
          discriminate.
      * intros H _ next'. destruct next, next'; exact H.
    + destruct (Getopt.cluster optstring rest next) as [rs0 u] eqn:E.
      intros H Hrs. injection H as <- ->. discriminate.
Qed.

Lemma cluster_alone_unused chars rs used :
  Getopt.cluster optstring chars None = (rs, used) -> used = false.
Proof.
  revert rs. induction chars as [|c rest IH]; intros rs; simpl.
  - congruence.
  - destruct (Getopt.short_lookup optstring c) as [[|]|].
    + destruct (Getopt.cluster optstring rest None) as [rs0 u] eqn:E.
      intros H. injection H as _ <-. now apply (IH rs0).
    + destruct rest; congruence.
    + destruct (Getopt.cluster optstring rest None) as [rs0 u] eqn:E.
      intros H. injection H as _ <-. now apply (IH rs0).
Qed.

Lemma long_next_irrelevant body next r :
  Getopt.long longopts body next = (r, false) ->
  no_error r = true ->
  forall next', Getopt.long longopts body next' = (r, false).
Proof.
  unfold Getopt.long.
  destruct (Getopt.split_eq body) as [nm value].
  destruct (Getopt.find_long longopts nm) as [p|d]; [|congruence].
  destruct value, (Getopt.has_arg p); try congruence.
  destruct next; intros H Hr; injection H as <-; discriminate.
Qed.

Lemma long_alone_unused body r used :
  Getopt.long longopts body None = (r, used) -> used = false.
Proof.
  unfold Getopt.long.
  destruct (Getopt.split_eq body) as [nm value].
  destruct (Getopt.find_long longopts nm) as [p|d]; [|congruence].
  destruct value, (Getopt.has_arg p); congruence.
Qed.

(** An element that did not take the next element as its argument
    yields the same options whatever follows it. *)
Lemma parse_element_next_irrelevant a next rs :
  Getopt.parse_element optstring longopts a next = (rs, false) ->
  forallb no_error rs = true ->
  forall next',
    Getopt.parse_element optstring longopts a next' = (rs, false).
Proof.
  unfold Getopt.parse_element.
  destruct (c_str a) as [|c0 [|c1 body]]; try congruence.
  destruct (c0 =? "-")%char; cbn [negb]; [|congruence].
  destruct (c1 =? "-")%char.
  - destruct (Getopt.long longopts body next) as [r u] eqn:E.
    intros H Hrs next'. injection H as <- ->.
    simpl in Hrs. rewrite andb_true_r in Hrs.
    now rewrite (long_next_irrelevant _ _ _ E Hrs next').
  - apply cluster_next_irrelevant.
Qed.

Lemma parse_element_alone_unused a rs used :
  Getopt.parse_element optstring longopts a None = (rs, used) ->
  used = false.
Proof.
  unfold Getopt.parse_element.
  destruct (c_str a) as [|c0 [|c1 body]]; try congruence.
  destruct (c0 =? "-")%char; cbn [negb]; [|congruence].
  destruct (c1 =? "-")%char.
  - destruct (Getopt.long longopts body None) as [r u] eqn:E.
    intros H. injection H as _ <-. now apply long_alone_unused in E.
  - apply cluster_alone_unused.
Qed.

(** One step of the scan at an option element. *)
Lemma scan_option a rest rs used :
  Getopt.is_nonoption a = false ->
  Getopt.is_dashdash a = false ->
  Getopt.parse_element optstring longopts a (hd_error rest) = (rs, used) ->
  Getopt.scan optstring longopts (a :: rest) =
    match rest with
    | b :: rest' =>
        if used
        then Getopt.add_options rs [a; b]
               (Getopt.scan optstring longopts rest')
        else Getopt.add_options rs [a]
               (Getopt.scan optstring longopts rest)
    | [] => Getopt.add_options rs [a] (Getopt.scan optstring longopts rest)
    end.
Proof.
  intros H1 H2 H3. cbn [Getopt.scan]. now rewrite H1, H2, H3.
Qed.

Lemma scan_nil :
  Getopt.scan optstring longopts [] =
    {| Getopt.rets := []; Getopt.taken := [];
       Getopt.separator := []; Getopt.operands := [] |}.
Proof. reflexivity. Qed.

Lemma scan_operand a rest :
  Getopt.is_nonoption a = true ->
  Getopt.scan optstring longopts (a :: rest) =
    if Getopt.posixly_correct
    then {| Getopt.rets := []; Getopt.taken := [];
            Getopt.separator := []; Getopt.operands := a :: rest |}
    else Getopt.add_operand a (Getopt.scan optstring longopts rest).
Proof. intros H. cbn [Getopt.scan]. now rewrite H. Qed.

Lemma scan_separator a rest :
  Getopt.is_nonoption a = false ->
  Getopt.is_dashdash a = true ->
  Getopt.scan optstring longopts (a :: rest) =
    {| Getopt.rets := []; Getopt.taken := [];
       Getopt.separator := [a]; Getopt.operands := rest |}.
Proof. intros H1 H2. cbn [Getopt.scan]. now rewrite H1, H2. Qed.

(** Operands alone yield no option. *)
Lemma scan_operands_only N :
  forallb Getopt.is_nonoption N = true ->
  Getopt.rets (Getopt.scan optstring longopts N) = [].
Proof.
  induction N as [|a N IH]; [reflexivity|].
  cbn [forallb]. rewrite andb_true_iff. intros [Ha HN].
  rewrite scan_operand by exact Ha.
  destruct Getopt.posixly_correct; [reflexivity|]. simpl. now apply IH.
Qed.

(** A single operand is scanned alike in both orderings. *)
Lemma scan_single_operand a :
  Getopt.is_nonoption a = true ->
  Getopt.scan optstring longopts [a] =
    {| Getopt.rets := []; Getopt.taken := [];
       Getopt.separator := []; Getopt.operands := [a] |}.
Proof.
  intros H. rewrite scan_operand by exact H.
  now destruct Getopt.posixly_correct.
Qed.

(** With [POSIXLY_CORRECT] set, the scan stops at an operand. *)
Lemma scan_in_order_stops N a rest :
  Getopt.posixly_correct = true ->
  forallb Getopt.is_nonoption N = true ->
  Getopt.is_nonoption a = true ->
  Getopt.rets (Getopt.scan optstring longopts (N ++ a :: rest)) = [].
Proof.
  intros Hm HN Ha. destruct N as [|b N]; cbn [app].
  - rewrite scan_operand by exact Ha. now rewrite Hm.
  - cbn [forallb] in HN. apply andb_true_iff in HN as [Hb _].
    rewrite scan_operand by exact Hb. now rewrite Hm.
Qed.

(** Scanning again what a scan without errors left behind (options,
    separator, operands) yields the same options. *)
Lemma rescan_operands args :
  forallb no_error (Getopt.rets (Getopt.scan optstring longopts args)) = true ->
  forall N, forallb Getopt.is_nonoption N = true ->
  let s := Getopt.scan optstring longopts args in
  Getopt.rets
    (Getopt.scan optstring longopts
       (Getopt.taken s ++ Getopt.separator s ++ N ++ Getopt.operands s))
  = Getopt.rets s.
Proof.
  induction args as [|a rest IH1 IH2] using list_ind_pairs;
    intros Herr N HN; cbv zeta.
  - simpl. rewrite app_nil_r. now apply scan_operands_only.
  - destruct (Getopt.is_nonoption a) eqn:Ha.
    { rewrite scan_operand in * by exact Ha.
      destruct Getopt.posixly_correct eqn:Hm.
      { fields. now apply scan_in_order_stops. }
      fields.
      specialize (IH1 Herr (N ++ [a])).
      rewrite <- app_assoc in IH1. apply IH1.
      rewrite forallb_app, HN. simpl. now rewrite Ha. }
    destruct (Getopt.is_dashdash a) eqn:Hd.
    { rewrite scan_separator by assumption. fields.
      now rewrite scan_separator by assumption. }
    destruct (Getopt.parse_element optstring longopts a (hd_error rest))
      as [rs used] eqn:Hp.
    rewrite (scan_option _ _ _ _ Ha Hd Hp) in *.
    destruct rest as [|b rest'].
    + apply parse_element_alone_unused in Hp as Hu. subst used.
      rewrite scan_nil in *. fields. rewrite forallb_app in Herr.
      apply andb_true_iff in Herr as [Hrs _]. rewrite !app_nil_r.
      pose proof (parse_element_next_irrelevant _ _ _ Hp Hrs (hd_error N))
        as Hp'.
      rewrite (scan_option _ _ _ _ Ha Hd Hp').
      assert (E : Getopt.rets (Getopt.scan optstring longopts N) = [])
        by now apply scan_operands_only.
      destruct N; fields; now rewrite E, app_nil_r.
    + destruct used; fields; rewrite forallb_app in Herr;
        apply andb_true_iff in Herr as [Hrs Hrest].
      * set (X := Getopt.taken _ ++ _) in *.
        assert (Hp' : Getopt.parse_element optstring longopts a
                        (hd_error (b :: X)) = (rs, true)) by exact Hp.
        rewrite (scan_option _ _ _ _ Ha Hd Hp'). fields.
        f_equal. exact (IH2 b rest' eq_refl Hrest N HN).
      * set (X := Getopt.taken _ ++ _) in *.
        pose proof (parse_element_next_irrelevant _ _ _ Hp Hrs (hd_error X))
          as Hp'.
        rewrite (scan_option _ _ _ _ Ha Hd Hp').
        assert (E : Getopt.rets (Getopt.scan optstring longopts X)
                    = Getopt.rets (Getopt.scan optstring longopts (b :: rest')))
          by exact (IH1 Hrest N HN).
        destruct X; fields; now rewrite E.
Qed.

Lemma rescan argv :
  let s := Getopt.scan optstring longopts (tl argv) in
  forallb no_error (Getopt.rets s) = true ->
  Getopt.rets
    (Getopt.scan optstring longopts (tl (Getopt.permuted argv s)))
  = Getopt.rets s.
Proof.
  intros s Herr. unfold Getopt.permuted.
  pose proof (rescan_operands (tl argv) Herr [] eq_refl) as H.
  destruct argv as [|p args]; exact H.
Qed.

(** Every element ends up among the options, as the separator or
    among the operands. *)
Lemma scan_length args :
  let s := Getopt.scan optstring longopts args in
  (List.length (Getopt.taken s) + List.length (Getopt.separator s)
   + List.length (Getopt.operands s) = List.length args)%nat.
Proof.
  induction args as [|a rest IH1 IH2] using list_ind_pairs; cbv zeta.
  - reflexivity.
  - destruct (Getopt.is_nonoption a) eqn:Ha.
    { rewrite scan_operand by exact Ha.
      destruct Getopt.posixly_correct; fields; simpl in *; lia. }
    destruct (Getopt.is_dashdash a) eqn:Hd.
    { rewrite scan_separator by assumption. simpl. reflexivity. }
    destruct (Getopt.parse_element optstring longopts a (hd_error rest))
      as [rs used] eqn:Hp.
    rewrite (scan_option _ _ _ _ Ha Hd Hp).
    destruct rest as [|b rest']; [|destruct used]; fields.
    + simpl in *. lia.
    + specialize (IH2 b rest' eq_refl). simpl in *. lia.
    + simpl in *. lia.
Qed.

(** With exactly one operand, [argv[optind]] is that operand. *)
Lemma address_operand argv :
  let s := Getopt.scan optstring longopts (tl argv) in
  Z.of_nat (List.length argv) - 1 = Getopt.optind_after s ->
  exists a,
    Getopt.operands s = [a] /\
    nth_error (Getopt.permuted argv s)
      (Z.to_nat (Getopt.optind_after s)) = Some a.
Proof.
  intros s. unfold Getopt.optind_after, Getopt.permuted.
  pose proof (scan_length (tl argv)) as L. fold s in L. cbv zeta in L.
  destruct argv as [|p args]; cbn [tl List.length firstn app] in *;
    intros H; [lia|].
  destruct (Getopt.operands s) as [|a [|a' ops]] eqn:E;
    cbn [List.length] in L; try lia.
  exists a. split; [reflexivity|].
  replace (Z.to_nat _)
    with (S (List.length (Getopt.taken s ++ Getopt.separator s)))
    by (rewrite length_app; lia).
  cbn [nth_error]. rewrite app_assoc.
  rewrite nth_error_app2 by lia. now rewrite Nat.sub_diag.
Qed.

End Scan.

(** The tables of [main]. *)

Lemma short_lookup_main c k :
  Getopt.short_lookup short_opt c = Some k ->
  (c = "h"%char /\ k = Getopt.no_argument) \/
  (In c ["n"; "c"; "o"; "l"]%char /\ k = Getopt.required_argument).
Proof.
  unfold short_opt, lit.
  cbn [list_ascii_of_string Getopt.short_lookup].
  repeat (match goal with
          | |- context [Ascii.eqb ?x c] =>
              destruct (Ascii.eqb_spec x c) as [<-|?]
          end;
          [intros H; vm_compute in H; inversion H; subst; simpl; tauto|]).
  discriminate.
Qed.

Lemma cluster_from_tables chars next rs used :
  Getopt.cluster short_opt chars next = (rs, used) ->
  Forall from_tables rs.
Proof.
  revert rs used. induction chars as [|c rest IH]; intros rs used;
    cbn [Getopt.cluster].
  - intros H. injection H as <- _. constructor.
  - destruct (Getopt.short_lookup short_opt c) as [k|] eqn:Ek.
    + apply short_lookup_main in Ek as [[-> ->]|[Hc ->]].
      * destruct (Getopt.cluster short_opt rest next) as [rs0 u] eqn:E.
        intros H. injection H as <- _. constructor; [reflexivity|].
        now apply (IH rs0 u).
      * destruct rest, next; intros H; injection H as <- _;
          (constructor; [exact Hc || exact I | constructor]).
    + destruct (Getopt.cluster short_opt rest next) as [rs0 u] eqn:E.
      intros H. injection H as <- _. constructor; [exact I|].
      now apply (IH rs0 u).
Qed.

Lemma find_long_In longopts nm p :
  Getopt.find_long longopts nm = inl p -> In p longopts.
Proof.
  unfold Getopt.find_long.
  destruct (filter (Getopt.exact_match nm) longopts) as [|q qs] eqn:E.
  - destruct (filter (Getopt.prefix_match nm) longopts) as [|q qs] eqn:E';
      [discriminate|].
    destruct (forallb _ qs); [|discriminate].
    intros H. injection H as <-.
    apply (proj1 (filter_In (Getopt.prefix_match nm) q longopts)).
    rewrite E'. now left.
  - intros H. injection H as <-.
    apply (proj1 (filter_In (Getopt.exact_match nm) q longopts)).
    rewrite E. now left.
Qed.

Lemma long_from_tables body next r used :
  Getopt.long long_opt body next = (r, used) -> from_tables r.
Proof.
  unfold Getopt.long.
  destruct (Getopt.split_eq body) as [nm value].
  destruct (Getopt.find_long long_opt nm) as [p|d] eqn:E.
  - apply find_long_In in E. simpl in E.
    destruct E as [<-|[<-|[<-|[<-|[<-|[]]]]]]; simpl;
      destruct value, next; intros H; injection H as <- _; simpl; tauto.
  - intros H. injection H as <- _. exact I.
Qed.

Lemma parse_element_from_tables a next rs used :
  Getopt.parse_element short_opt long_opt a next = (rs, used) ->
  Forall from_tables rs.
Proof.
  unfold Getopt.parse_element.
  destruct (c_str a) as [|c0 [|c1 body]];
    try (intros H; injection H as <- _; constructor).
  destruct (c0 =? "-")%char; cbn [negb];
    [|intros H; injection H as <- _; constructor].
  destruct (c1 =? "-")%char.
  - destruct (Getopt.long long_opt body next) as [r u] eqn:E.
    intros H. injection H as <- _.
    constructor; [|constructor]. now apply long_from_tables in E.
  - apply cluster_from_tables.
Qed.

Lemma scan_from_tables args :
  Forall from_tables (Getopt.rets (Getopt.scan short_opt long_opt args)).
Proof.
  induction args as [|a rest IH1 IH2] using list_ind_pairs.
  - constructor.
  - destruct (Getopt.is_nonoption a) eqn:Ha.
    { rewrite scan_operand by exact Ha.
      destruct Getopt.posixly_correct; [constructor | exact IH1]. }
    destruct (Getopt.is_dashdash a) eqn:Hd.
    { rewrite scan_separator by assumption. constructor. }
    destruct (Getopt.parse_element short_opt long_opt a (hd_error rest))
      as [rs used] eqn:Hp.
    rewrite (scan_option _ _ _ _ _ _ Ha Hd Hp).
    apply parse_element_from_tables in Hp.
    destruct rest as [|b rest']; [|destruct used]; fields;
      apply Forall_app; split; try assumption.
    exact (IH2 b rest' eq_refl).
Qed.

(* ---------------------------------------------------------------- *)
(** *** The two loops of [main] *)

Lemma with_optarg_same w : with_optarg (optarg w) w = w.
Proof. now destruct w. Qed.

Lemma setting_letter r :
  from_tables r -> passes r = true ->
  exists c a, r = Getopt.opt c (Some a) /\ In c ["n"; "c"; "o"; "l"]%char.
Proof.
  destruct r as [c [a|]|d]; simpl; try discriminate.
  - intros H _. now exists c, a.
  - intros -> H. discriminate.
Qed.

(** The first loop lets options through that are neither errors nor
    [-h], without output. *)
Lemma verify_loop_passes program rs w :
  Forall from_tables rs -> forallb passes rs = true ->
  exists o, verify_loop program rs w = (Done None, with_optarg o w).
Proof.
  intros Hrs. revert w. induction Hrs as [|r rs Hr _ IH]; intros w Hp.
  - exists (optarg w). now rewrite with_optarg_same.
  - cbn [forallb] in Hp. apply andb_true_iff in Hp as [Hp Hps].
    destruct (setting_letter r Hr Hp) as (c & a & -> & Hc).
    destruct (IH (with_optarg (Some a) w) Hps) as [o Ho].
    exists o. cbn [verify_loop getopt_long]. run_prog.
    fold (with_optarg (Some a) w).
    destruct Hc as [<-|[<-|[<-|[<-|[]]]]]; exact Ho.
Qed.

(** At the first error or [-h] the first loop makes [main] return,
    after one message. *)
Lemma verify_loop_stops program rs w :
  Forall from_tables rs -> forallb passes rs = false ->
  exists status e o,
    verify_loop program rs w
    = (Done (Some status), with_optarg o (emit e w))
    /\ before_session e = true.
Proof.
  intros Hrs. revert w. induction Hrs as [|r rs Hr _ IH]; intros w Hp.
  - discriminate.
  - cbn [forallb] in Hp. destruct (passes r) eqn:Er.
    + destruct (setting_letter r Hr Er) as (c & a & -> & Hc).
      destruct (IH (with_optarg (Some a) w) Hp) as (st & e & o & Ho & He).
      exists st, e, o. split; [|exact He].
      cbn [verify_loop getopt_long]. run_prog.
      fold (with_optarg (Some a) w).
      destruct Hc as [<-|[<-|[<-|[<-|[]]]]]; exact Ho.
    + destruct r as [c [a|]|d]; simpl in Hr, Er.
      * destruct Hr as [<-|[<-|[<-|[<-|[]]]]]; discriminate.
      * subst c. exists 0, (Stdout usage_text [arg_str program]), None.
        split; reflexivity.
      * exists 1, (GetoptDiag d), None. split; reflexivity.
Qed.

(** One turn of the second loop on a setting option: the setter is
    called, or the argument is rejected. *)
Lemma settings_loop_step sock c a rs w :
  In c ["n"; "c"; "o"; "l"]%char ->
  let r := Getopt.opt c (Some a) in
  let w1 := with_optarg (Some a) w in
  settings_loop sock (r :: rs) 0 w =
    match setter_call sock r with
    | Some cl =>
        let z := env (trace w) cl in
        settings_loop sock rs z (emit (Call cl z) w1)
    | None => settings_loop sock rs 1 (emit (rejection r) w1)
    end.
Proof.
  intros Hc r w1. subst r.
  cbn [settings_loop getopt_long]. unfold bind at 1 2.
  unfold set_optarg at 1. fold w1. unfold ret at 1.
  destruct Hc as [<-|[<-|[<-|[<-|[]]]]];
    cbn [setter_call rejection Ascii.eqb Bool.eqb];
    cbv beta iota;
    repeat match goal with
    | |- context [code ?c] =>
        let v := eval vm_compute in (code c) in
        change (code c) with v
    end;
    cbn [Z.ltb Z.compare negb Z.eqb Pos.eqb];
    unfold bind at 1 2; unfold get_optarg at 1; cbn [optarg w1 with_optarg].
  - destruct (Nat.leb_spec (strlen a) MAX_NAME_LEN) as [Hl|Hl].
    + rewrite do_set_name_fits by exact Hl. reflexivity.
    + rewrite do_set_name_too_long by exact Hl. reflexivity.
  - rewrite (do_set_noise_cancelling_table sock (Some a) a) by reflexivity.
    destruct (lookup (c_str a) nc_table); reflexivity.
  - rewrite do_set_auto_off_never_only.
    destruct (cstr_eqb (c_str a) (lit "never")); reflexivity.
  - rewrite (do_set_prompt_language_table sock (Some a) a) by reflexivity.
    destruct (lookup (c_str a) pl_table); reflexivity.
Qed.

(** Once the status is nonzero the second loop does nothing more. *)
Lemma settings_loop_failed sock rs status w :
  status <> 0 ->
  Forall from_tables rs -> forallb passes rs = true ->
  exists o, settings_loop sock rs status w = (Done status, with_optarg o w).
Proof.
  intros Hst Hrs Hp. destruct Hrs as [|r rs Hr _].
  - exists (optarg w). now rewrite with_optarg_same.
  - cbn [forallb] in Hp. apply andb_true_iff in Hp as [Hp _].
    destruct (setting_letter r Hr Hp) as (c & a & -> & Hc).
    exists (Some a). cbn [settings_loop getopt_long]. run_prog.
    apply Z.eqb_neq in Hst. rewrite Hst.
    destruct Hc as [<-|[<-|[<-|[<-|[]]]]]; reflexivity.
Qed.

Lemma trace_emit e w : trace (emit e w) = trace w ++ [e].
Proof. reflexivity. Qed.

(** The second loop, entered with status 0 on options that passed the
    first loop, returns and leaves the events of a session. *)
Lemma settings_loop_session sock rs :
  Forall from_tables rs -> forallb passes rs = true ->
  forall w, exists t status o,
    settings_loop sock rs 0 w
    = (Done status, {| trace := trace w ++ t; optarg := o |})
    /\ session sock rs t status.
Proof.
  intros Hrs. induction Hrs as [|r rs Hr Hrs IH]; intros Hp w.
  - exists [], 0, (optarg w). split; [|constructor].
    rewrite app_nil_r. now destruct w.
  - cbn [forallb] in Hp. apply andb_true_iff in Hp as [Hp Hps].
    destruct (setting_letter r Hr Hp) as (c & a & -> & Hc).
    rewrite (settings_loop_step sock c a rs w Hc). cbv zeta.
    destruct (setter_call sock (Getopt.opt c (Some a))) as [cl|] eqn:Ecl.
    + set (z := env (trace w) cl).
      destruct (Z.eq_dec z 0) as [Hz|Hz].
      * rewrite Hz.
        destruct (IH Hps (emit (Call cl 0) (with_optarg (Some a) w)))
          as (t & st & o & Ht & Hs).
        exists (Call cl 0 :: t), st, o. split.
        -- rewrite Ht. cbn [trace emit with_optarg].
           now rewrite <- app_assoc.
        -- now apply session_applied.
      * destruct (settings_loop_failed sock rs z
                    (emit (Call cl z) (with_optarg (Some a) w)) Hz Hrs Hps)
          as [o Ho].
        exists [Call cl z], z, o. split; [exact Ho|].
        now apply session_failed.
    + destruct (settings_loop_failed sock rs 1
                  (emit (rejection (Getopt.opt c (Some a)))
                     (with_optarg (Some a) w))
                  ltac:(discriminate) Hrs Hps) as [o Ho].
      exists [rejection (Getopt.opt c (Some a))], 1, o.
      split; [exact Ho|]. now apply session_rejected.
Qed.

(* ---------------------------------------------------------------- *)
(** *** The runs of [main] *)

Lemma bind_done {A B} (m : M A) (k : A -> M B) w a w' :
  m w = (Done a, w') -> bind m k w = k a w'.
Proof. intros H. unfold bind. now rewrite H. Qed.

Lemma passes_no_error rs :
  forallb passes rs = true -> forallb no_error rs = true.
Proof.
  induction rs as [|r rs IH]; [reflexivity|]. cbn [forallb].
  rewrite !andb_true_iff. intros [Hr Hrs]. split; [|now apply IH].
  now destruct r.
Qed.

Ltac next_call := erewrite bind_done by reflexivity; cbv beta.

(** The test [argc - 1 != optind] counts the operands, and the test
    [argc <= optind] tells whether there is none. *)
Lemma address_count argv :
  let s := Getopt.scan short_opt long_opt (tl argv) in
  (Z.of_nat (List.length argv) - 1 =? Getopt.optind_after s)
  = (List.length (Getopt.operands s) =? 1)%nat
  /\ (Z.of_nat (List.length argv) <=? Getopt.optind_after s)
     = (List.length (Getopt.operands s) =? 0)%nat.
Proof.
  intros s. unfold Getopt.optind_after.
  pose proof (scan_length short_opt long_opt (tl argv)) as L.
  fold s in L. cbv zeta in L.
  destruct argv as [|p args]; cbn [tl List.length] in *.
  - split.
    + destruct (Z.eqb_spec (Z.of_nat 0 - 1)
                  (1 + Z.of_nat (List.length (Getopt.taken s))
                   + Z.of_nat (List.length (Getopt.separator s))));
        destruct (Nat.eqb_spec (List.length (Getopt.operands s)) 1); lia.
    + destruct (Z.leb_spec (Z.of_nat 0)
                  (1 + Z.of_nat (List.length (Getopt.taken s))
                   + Z.of_nat (List.length (Getopt.separator s))));
        destruct (Nat.eqb_spec (List.length (Getopt.operands s)) 0); lia.
  - split.
    + destruct (Z.eqb_spec (Z.of_nat (S (List.length args)) - 1)
                  (1 + Z.of_nat (List.length (Getopt.taken s))
                   + Z.of_nat (List.length (Getopt.separator s))));
        destruct (Nat.eqb_spec (List.length (Getopt.operands s)) 1); lia.
    + destruct (Z.leb_spec (Z.of_nat (S (List.length args)))
                  (1 + Z.of_nat (List.length (Getopt.taken s))
                   + Z.of_nat (List.length (Getopt.separator s))));
        destruct (Nat.eqb_spec (List.length (Getopt.operands s)) 0); lia.
Qed.

(** [main] always returns, and its run has one of three shapes. *)
Lemma main_shape argv :
  exists status w,
    run argv = (Done status, w) /\ run_shape argv status (trace w).
Proof.
  unfold run, main. next_call.
  set (sock := env (trace initial) _). next_call.
  match goal with |- context [if ?r <? 0 then _ else _] => set (r1 := r) end.
  destruct (Z.ltb_spec r1 0) as [H1|H1].
  { next_call. eexists _, _. split; [reflexivity|].
    now apply shape_no_send_timeout. }
  next_call.
  match goal with |- context [if ?r <? 0 then _ else _] => set (r2 := r) end.
  destruct (Z.ltb_spec r2 0) as [H2|H2].
  { next_call. eexists _, _. split; [reflexivity|].
    apply (shape_early argv sock r1 r2 [Perror _]);
      [exact H1|reflexivity|].
    left. exists (setsockopt sock SOL_SOCKET SO_RCVTIMEO recieve_timeout), r2.
    split; [|now split]. right. right. now left. }
  set (s := Getopt.scan short_opt long_opt (tl argv)).
  pose proof (scan_from_tables (tl argv)) as Hft. fold s in Hft.
  match goal with
  | |- context [bind (verify_loop _ _) _ ?w] => set (w2 := w)
  end.
  assert (Hw2 : trace w2 = timeouts sock r1 r2) by reflexivity.
  destruct (forallb passes (Getopt.rets s)) eqn:Hp.
  2:{ destruct (verify_loop_stops (hd_error argv) _ w2 Hft Hp)
        as (st & e & o & Hv & He).
      erewrite bind_done by exact Hv. cbv beta iota.
      eexists _, _. split; [reflexivity|].
      cbn [trace with_optarg emit]. rewrite Hw2.
      apply shape_early; [exact H1| |right; left; exact Hp].
      simpl. now rewrite He. }
  destruct (verify_loop_passes (hd_error argv) _ w2 Hft Hp) as (o & Hv).
  erewrite bind_done by exact Hv. cbv beta iota.
  destruct (Z.eqb_spec (Z.of_nat (List.length argv) - 1)
              (Getopt.optind_after s)) as [Hn|Hn]; cbn [negb].
  2:{ do 2 next_call. eexists _, _. split; [reflexivity|].
      cbn [trace with_optarg emit]. rewrite Hw2, <- app_assoc.
      apply shape_early; [exact H1|reflexivity|].
      right. right. left. fold s. intros Hone. apply Hn.
      destruct (address_count argv) as [Hcount _]. fold s in Hcount.
      apply Z.eqb_eq. rewrite Hcount. now apply Nat.eqb_eq. }
  destruct (address_operand _ _ argv Hn) as (a & _ & Ha). fold s in Ha.
  rewrite Ha. cbn [deref]. next_call. next_call.
  match goal with |- context [negb (?r =? 0)] => set (rc := r) end.
  destruct (Z.eqb_spec rc 0) as [Hc|Hc]; cbn [negb].
  2:{ next_call. eexists _, _. split; [reflexivity|].
      cbn [trace with_optarg emit]. rewrite Hw2, <- app_assoc.
      apply shape_early; [exact H1| |].
      - apply Z.eqb_neq in Hc. cbn [app forallb before_session].
        now rewrite Hc.
      - right. right. right. eexists sock, _, rc.
        split; [|exact Hc]. apply in_or_app. right. now left. }
  rewrite Hc. next_call.
  pose proof (rescan _ _ argv (passes_no_error _ Hp)) as Hre.
  cbv zeta in Hre. fold s in Hre. rewrite Hre.
  match goal with
  | |- context [bind (settings_loop _ _ ?x) _ _] => set (st := x)
  end.
  set (addr := {| rc_family := AF_BLUETOOTH; rc_bdaddr := str2ba a;
                  rc_channel := BOSE_CHANNEL |}).
  destruct (Z.eq_dec st 0) as [Hst|Hst].
  - rewrite Hst.
    match goal with
    | |- context [bind (settings_loop _ _ _) _ ?w] => set (w5 := w)
    end.
    assert (Hw5 : trace w5 = timeouts sock r1 r2
                  ++ [Call (connect sock addr) 0;
                      Call (init_connection sock) 0]).
    { subst w5. cbn [trace with_optarg emit]. rewrite Hw2, <- app_assoc.
      reflexivity. }
    destruct (settings_loop_session sock _ Hft Hp w5)
      as (t & fin & o' & Hl & Hs).
    erewrite bind_done by exact Hl. cbv beta.
    pose proof (shape_session argv sock r1 r2 addr 0 t fin
                  (env (trace w5 ++ t
                        ++ if fin <? 0
                           then [Perror "Error trying to change setting"]
                           else [])
                     (close sock)) H1 H2 Hs) as G.
    destruct (fin <? 0) eqn:Hfin; next_call; next_call;
      eexists _, _; (split; [reflexivity|]);
      cbn [trace with_optarg emit]; rewrite Hw5, <- !app_assoc;
      rewrite <- ?app_assoc in G; rewrite ?app_nil_r in *;
      rewrite Hw5, <- ?app_assoc in G; exact G.
  - match goal with
    | |- context [bind (settings_loop _ _ _) _ ?w] => set (w5 := w)
    end.
    assert (Hw5 : trace w5 = timeouts sock r1 r2
                  ++ [Call (connect sock addr) 0;
                      Call (init_connection sock) st]).
    { subst w5. cbn [trace with_optarg emit]. rewrite Hw2, <- app_assoc.
      reflexivity. }
    destruct (settings_loop_failed sock _ st w5 Hst Hft Hp) as (o' & Hl).
    erewrite bind_done by exact Hl. cbv beta.
    assert (Hs : if st =? 0
                 then session sock (Getopt.rets s) [] st
                 else @nil event = [] /\ st = st).
    { apply Z.eqb_neq in Hst. now rewrite Hst. }
    pose proof (shape_session argv sock r1 r2 addr st [] st
                  (env (trace w5
                        ++ if st <? 0
                           then [Perror "Error trying to change setting"]
                           else [])
                     (close sock)) H1 H2 Hs) as G.
    destruct (st <? 0) eqn:Hfin; next_call; next_call;
      eexists _, _; (split; [reflexivity|]);
      cbn [trace with_optarg emit]; rewrite ?app_nil_r in *;
      rewrite Hw5, <- ?app_assoc; rewrite Hw5 in G;
      cbn [app] in *; exact G.
Qed.

(* ---------------------------------------------------------------- *)
(** *** Facts about traces and sessions *)

Lemma calls_app kind t1 t2 :
  calls kind (t1 ++ t2) = calls kind t1 || calls kind t2.
Proof. apply existsb_app. Qed.

Lemma setter_calls_app t1 t2 :
  setter_calls (t1 ++ t2) = setter_calls t1 ++ setter_calls t2.
Proof.
  induction t1 as [|e t1 IH]; [reflexivity|].
  destruct e as [c z| | | |]; simpl; try exact IH.
  destruct (is_setter c); simpl; now rewrite IH.
Qed.

Lemma setsockopt_calls_app t1 t2 :
  setsockopt_calls (t1 ++ t2) = setsockopt_calls t1 ++ setsockopt_calls t2.
Proof.
  induction t1 as [|e t1 IH]; [reflexivity|].
  destruct e as [c z| | | |]; simpl; try exact IH.
  destruct (is_setsockopt c); simpl; now rewrite IH.
Qed.

Lemma no_setsockopt_calls t :
  calls is_setsockopt t = false -> setsockopt_calls t = [].
Proof.
  induction t as [|e t IH]; [reflexivity|].
  destruct e as [c z| | | |]; simpl; try exact IH.
  destruct (is_setsockopt c); [discriminate|exact IH].
Qed.

Lemma no_setter_calls t :
  calls is_setter t = false -> setter_calls t = [].
Proof.
  induction t as [|e t IH]; [reflexivity|].
  destruct e as [c z| | | |]; simpl; try exact IH.
  destruct (is_setter c); [discriminate|exact IH].
Qed.

Lemma stops_at_failure_app t1 t2 :
  calls is_protocol t1 = false ->
  stops_at_failure (t1 ++ t2) = stops_at_failure t2.
Proof.
  induction t1 as [|e t1 IH]; [reflexivity|].
  destruct e as [c z| | | |]; simpl; try exact IH.
  destruct (is_protocol c); [discriminate|exact IH].
Qed.

(** What [stops_at_failure] says about every failed operation. *)
Lemma stops_at_failure_spec t :
  stops_at_failure t = true ->
  forall pre c z post,
    t = pre ++ Call c z :: post ->
    is_protocol c = true -> z <> 0 ->
    calls is_setter post = false.
Proof.
  intros Ht pre. revert t Ht.
  induction pre as [|e pre IH]; intros t Ht c z post -> Hc Hz.
  - simpl in Ht. rewrite Hc in Ht. apply Z.eqb_neq in Hz.
    rewrite Hz in Ht. simpl in Ht. now apply negb_true_iff in Ht.
  - assert (Hrest :
      stops_at_failure (pre ++ Call c z :: post) = true \/
      calls is_setter (pre ++ Call c z :: post) = false).
    { destruct e as [c' z'| | | |]; simpl in Ht; try (now left).
      destruct (is_protocol c' && negb (z' =? 0)); [right|now left].
      now apply negb_true_iff in Ht. }
    destruct Hrest as [H|H].
    + exact (IH _ H c z post eq_refl Hc Hz).
    + rewrite calls_app in H. apply orb_false_iff in H as [_ H].
      simpl in H. now apply orb_false_iff in H as [_ H].
Qed.

Lemma before_session_calls early :
  forallb before_session early = true ->
  calls is_protocol early = false /\ calls is_setsockopt early = false
  /\ calls is_close early = false.
Proof.
  induction early as [|e early IH]; [now repeat split|].
  cbn [forallb]. rewrite andb_true_iff. intros [He Hes].
  destruct (IH Hes) as (I1 & I2 & I3).
  destruct e as [[]| | | |]; simpl in *; try discriminate;
    now repeat split.
Qed.

Lemma setter_call_is_setter sock r c :
  setter_call sock r = Some c -> is_setter c = true.
Proof.
  destruct r as [letter [a|]|d]; simpl; try discriminate.
  repeat (match goal with
          | |- context [if ?b then _ else _] => destruct b
          | |- context [option_map _ ?o] => destruct o; simpl
          end; try discriminate);
    intros H; injection H as <-; reflexivity.
Qed.

Lemma rejection_no_call r kind : calls kind [rejection r] = false.
Proof.
  destruct r as [letter a|d]; simpl; [|reflexivity].
  repeat (match goal with
          | |- context [if ?b then _ else _] => destruct b
          end); reflexivity.
Qed.

(** A session consists of setter calls and at most one rejection. *)
Lemma session_calls sock rs S status kind :
  (forall c, is_setter c = true -> kind c = false) ->
  session sock rs S status -> calls kind S = false.
Proof.
  intros Hk. induction 1 as [|r rs c t st Hc _ IH|r rs c st Hc Hst|r rs Hr].
  - reflexivity.
  - simpl. rewrite (Hk c (setter_call_is_setter _ _ _ Hc)). exact IH.
  - simpl. now rewrite (Hk c (setter_call_is_setter _ _ _ Hc)).
  - apply rejection_no_call.
Qed.

(** The setters of a session are those of the first options, in order. *)
Lemma session_setters sock rs S status :
  session sock rs S status ->
  exists j,
    map Some (setter_calls S) = map (setter_call sock) (firstn j rs).
Proof.
  induction 1 as [|r rs c t st Hc _ IH|r rs c st Hc Hst|r rs Hr].
  - now exists 0%nat.
  - destruct IH as (j & IH). exists (S j).
    simpl. rewrite (setter_call_is_setter _ _ _ Hc). simpl.
    now rewrite IH, Hc.
  - exists 1%nat.
    simpl. rewrite (setter_call_is_setter _ _ _ Hc). simpl.
    now rewrite Hc.
  - exists 0%nat.
    rewrite no_setter_calls by apply rejection_no_call. reflexivity.
Qed.

Lemma session_stops sock rs S status :
  session sock rs S status -> stops_at_failure S = true.
Proof.
  induction 1 as [|r rs c t st Hc _ IH|r rs c st Hc Hst|r rs Hr].
  - reflexivity.
  - simpl. rewrite andb_false_r. exact IH.
  - simpl. now destruct (is_protocol c && negb (st =? 0)).
  - destruct r as [letter a|d]; simpl; [|reflexivity].
    repeat (match goal with
            | |- context [if ?b then _ else _] => destruct b
            end); reflexivity.
Qed.

Lemma stops_at_failure_app_r S T :
  stops_at_failure S = true -> calls is_protocol T = false ->
  stops_at_failure (S ++ T) = true.
Proof.
  intros HS HT.
  assert (HT' : calls is_setter T = false).
  { clear HS. induction T as [|e T IH]; [reflexivity|].
    destruct e as [c z| | | |]; simpl in *; try (now apply IH).
    apply orb_false_iff in HT as [Hc HT]. rewrite (IH HT).
    unfold is_protocol in Hc. apply orb_false_iff in Hc as [_ ->].
    reflexivity. }
  induction S as [|e S IH]; simpl in *.
  - clear HT'. induction T as [|e T IH]; [reflexivity|].
    destruct e as [c z| | | |]; simpl in *; try (now apply IH).
    apply orb_false_iff in HT as [-> HT]. simpl. now apply IH.
  - destruct e as [c z| | | |]; try (now apply IH).
    destruct (is_protocol c && negb (z =? 0)); [|now apply IH].
    rewrite calls_app, HT', orb_false_r. exact HS.
Qed.

Lemma perror_tail_calls kind (b : bool) sock rc :
  kind (close sock) = false ->
  calls kind ((if b then [Perror "Error trying to change setting"] else [])
              ++ [Call (close sock) rc]) = false.
Proof. intros H. destruct b; simpl; now rewrite H. Qed.

(* ---------------------------------------------------------------- *)
(** *** The name handler *)

(** C1 (the code departs from the claim).  For every name longer than
    [MAX_NAME_LEN], [do_set_name] prints the message that announces a
    truncation and returns 1; it does not call [set_name] at all, so no
    truncated name is applied: the trace gains the message and no
    setter call. *)
Theorem do_set_name_drops_long_name sock arg w :
  (MAX_NAME_LEN < strlen arg)%nat ->
  do_set_name sock (Some arg) w =
    (Done 1,
     emit (Stderr "Name exceeds %d character maximum. Truncating.\n"
             [arg_int (Z.of_nat MAX_NAME_LEN)]) w)
  /\ setter_calls (trace (snd (do_set_name sock (Some arg) w)))
     = setter_calls (trace w).
Proof.
  intros H. rewrite do_set_name_too_long by exact H. split; [reflexivity|].
  cbn [snd]. rewrite trace_emit, setter_calls_app. simpl.
  apply app_nil_r.
Qed.

(** C9.  For every name of length at most [MAX_NAME_LEN], [do_set_name]
    calls [set_name] with the array of [MAX_NAME_LEN + 1] bytes that
    holds the characters of the argument followed by NULs only (at least
    one), so that the string in the array is the argument unmodified; the
    call is the only event added to the trace (no warning is printed),
    and its result is returned unchanged. *)
Theorem do_set_name_passes_short_name sock arg w :
  (strlen arg <= MAX_NAME_LEN)%nat ->
  let buffer := c_str arg ++ repeat NUL (MAX_NAME_LEN + 1 - strlen arg) in
  let status := env (trace w) (set_name sock buffer) in
  do_set_name sock (Some arg) w
    = (Done status, emit (Call (set_name sock buffer) status) w)
  /\ List.length buffer = (MAX_NAME_LEN + 1)%nat
  /\ (1 <= MAX_NAME_LEN + 1 - strlen arg)%nat
  /\ c_str buffer = c_str arg.
Proof.
  intros H buffer status. repeat split.
  - now rewrite do_set_name_fits by exact H.
  - now apply name_array_length.
  - lia.
  - now apply name_array_c_str.
Qed.

(* ---------------------------------------------------------------- *)
(** *** The enumeration handlers *)

(** C2 (the code departs from the claim).  For each of the arguments
    [5], [20], [40], [60] and [180], whatever the values of the members
    of [enum AutoOff], [do_set_auto_off] prints the message for an
    invalid argument and returns 1 without calling [set_auto_off]: the
    assignment under the case labels runs on into the [default] branch,
    which accepts [never] only. *)
Theorem do_set_auto_off_rejects_minutes sock w :
  Forall
    (fun arg =>
       do_set_auto_off sock (Some arg) w =
         (Done 1,
          emit (Stderr "Invalid auto-off argument: %s\n"
                  [arg_str (Some arg)]) w))
    (map lit ["5"; "20"; "40"; "60"; "180"]%string).
Proof.
  repeat constructor; rewrite do_set_auto_off_never_only; reflexivity.
Qed.

(** C7.  Called as [main] calls them, with the argument that
    [getopt_long] left in [optarg], the noise-cancelling handler calls
    [set_noise_cancelling] with the member that [nc_table] gives for
    [high], [low] and [off], and the prompt-language handler calls
    [set_prompt_language] with the member that [pl_table] gives for its
    twelve language names; each returns the result of its setter.  For
    every other argument each handler returns 1, and the only event is
    its message on [stderr]: the setter is not called. *)
Theorem handlers_follow_tables sock arg w :
  optarg w = Some arg ->
  do_set_noise_cancelling sock (Some arg) w =
    match lookup (c_str arg) nc_table with
    | Some nc =>
        let status := env (trace w) (set_noise_cancelling sock nc) in
        (Done status, emit (Call (set_noise_cancelling sock nc) status) w)
    | None =>
        (Done 1,
         emit (Stderr "Invalid noise cancelling argument: %s\n"
                 [arg_str (Some arg)]) w)
    end
  /\
  do_set_prompt_language sock (Some arg) w =
    match lookup (c_str arg) pl_table with
    | Some pl =>
        let status := env (trace w) (set_prompt_language sock pl) in
        (Done status, emit (Call (set_prompt_language sock pl) status) w)
    | None =>
        (Done 1,
         emit (Stderr "Invalid prompt language argument: %s\n"
                 [arg_str (Some arg)]) w)
    end.
Proof.
  intros H. split.
  - now rewrite (do_set_noise_cancelling_table sock (Some arg) arg w H).
  - now rewrite (do_set_prompt_language_table sock (Some arg) arg w H).
Qed.

(* ---------------------------------------------------------------- *)
(** *** The session of [main] *)

Lemma early_setter_calls early :
  forallb before_session early = true -> calls is_setter early = false.
Proof.
  intros He. destruct (before_session_calls early He) as (E1 & _).
  induction early as [|e early IH]; [reflexivity|].
  cbn [forallb] in He. apply andb_true_iff in He as [_ He].
  destruct e as [c z| | | |]; simpl in *; try (now apply IH).
  apply orb_false_iff in E1 as [Hc E1]. rewrite (IH He E1).
  unfold is_protocol in Hc. now apply orb_false_iff in Hc as [_ ->].
Qed.

(** The setter calls of a run are those of the first options of the
    command line, in order. *)
Lemma run_setter_calls argv :
  exists sock j,
    map Some (setter_calls (trace (snd (run argv))))
    = map (setter_call sock)
        (firstn j (Getopt.rets (Getopt.scan short_opt long_opt (tl argv)))).
Proof.
  destruct (main_shape argv) as (status & w & Hrun & Hshape).
  rewrite Hrun. cbn [snd].
  destruct Hshape as [sock r1 H1|sock r1 r2 early st H1 He Hwhy
                     |sock r1 r2 addr st S fin rc H1 H2 HS].
  - now exists sock, 0%nat.
  - exists sock, 0%nat. rewrite no_setter_calls; [reflexivity|].
    rewrite calls_app, (early_setter_calls early He). reflexivity.
  - set (tail := _ ++ [Call (close sock) rc]).
    rewrite !setter_calls_app.
    rewrite (no_setter_calls tail) by now apply perror_tail_calls.
    cbn [timeouts setter_calls is_setter app]. rewrite app_nil_r.
    exists sock. destruct (st =? 0).
    + exact (session_setters _ _ _ _ HS).
    + destruct HS as [-> _]. now exists 0%nat.
Qed.

Lemma invalid_setting_no_call sock r :
  invalid_setting r = true -> setter_call sock r = None.
Proof.
  destruct r as [letter [a|]|d]; cbn [invalid_setting setter_call];
    try discriminate.
  destruct (Ascii.eqb_spec letter "n") as [->|_].
  { cbn [Ascii.eqb Bool.eqb]. discriminate. }
  destruct (letter =? "c")%char.
  { destruct (lookup (c_str a) nc_table); [discriminate|reflexivity]. }
  destruct (letter =? "o")%char.
  { unfold ao_table. cbn [lookup].
    destruct (cstr_eqb (c_str a) (lit "never"));
      [discriminate|reflexivity]. }
  destruct (letter =? "l")%char; [|reflexivity].
  destruct (lookup (c_str a) pl_table); [discriminate|reflexivity].
Qed.

Lemma before_session_not_connected early :
  forallb before_session early = true -> connected early = false.
Proof.
  induction early as [|e early IH]; [reflexivity|].
  cbn [forallb]. rewrite andb_true_iff. intros [He Hes].
  unfold connected in *. cbn [existsb]. rewrite (IH Hes), orb_false_r.
  destruct e as [[]| | | |]; simpl in *; try reflexivity; try discriminate.
  now apply negb_true_iff in He.
Qed.

(** C3.  Every run of [main] returns, and is of one of two kinds.  Either
    it ends before the session, for one of four reasons (a timeout could
    not be set, an option did not pass the first loop, the operands are
    not exactly one, [connect] failed), and then it has no successful
    [connect] and performs no protocol operation.  Or its trace holds a
    successful [connect] followed at once by the call of
    [init_connection], which is the only one of the run and precedes every
    setter; if the handshake returns 0, the events that follow are the
    session over the options of the command line: the setter of each
    option in turn, up to the first setter with a nonzero result or the
    first rejected argument; if the handshake returns another status,
    no setter is called and that status is returned.  In both kinds the
    setter calls are, in order, the calls that the first [j] options of
    the command line lead to, and no setter call follows a protocol
    operation (handshake or setter) whose result is nonzero. *)
Theorem session_sequencing argv :
  let options := Getopt.rets (Getopt.scan short_opt long_opt (tl argv)) in
  exists status w,
    run argv = (Done status, w)
    /\ ((ends_early argv (trace w)
         /\ connected (trace w) = false
         /\ calls is_protocol (trace w) = false)
        \/ exists pre sock address st S post,
             trace w = pre ++ Call (connect sock address) 0
                           :: Call (init_connection sock) st :: S ++ post
             /\ connected pre = false
             /\ calls is_protocol pre = false
             /\ calls is_init S = false
             /\ calls is_protocol post = false
             /\ (if st =? 0
                 then session sock options S status
                 else S = [] /\ status = st))
    /\ (exists sock j,
          map Some (setter_calls (trace w))
          = map (setter_call sock) (firstn j options))
    /\ (forall pre c z post,
          trace w = pre ++ Call c z :: post ->
          is_protocol c = true -> z <> 0 ->
          calls is_setter post = false).
Proof.
  intros options.
  pose proof (run_setter_calls argv) as B. fold options in B.
  destruct (main_shape argv) as (status & w & Hrun & Hshape).
  rewrite Hrun in B. cbn [snd] in B.
  exists status, w. split; [exact Hrun|].
  destruct Hshape as [sock r1 H1|sock r1 r2 early st H1 He Hwhy
                     |sock r1 r2 addr st S fin rc H1 H2 HS].
  - split; [left|split].
    + split; [|now split]. left.
      exists (setsockopt sock SOL_SOCKET SO_SNDTIMEO send_timeout), r1.
      split; [|now split]. right. now left.
    + exact B.
    + apply stops_at_failure_spec. reflexivity.
  - destruct (before_session_calls early He) as (E1 & E2 & E3).
    assert (Hp : calls is_protocol (timeouts sock r1 r2 ++ early) = false)
      by (rewrite calls_app, E1; reflexivity).
    split; [left|split].
    + split; [exact Hwhy|]. split; [|exact Hp].
      pose proof (before_session_not_connected early He) as Hnc.
      unfold connected in *. rewrite existsb_app, Hnc. reflexivity.
    + exact B.
    + apply stops_at_failure_spec.
      rewrite <- (app_nil_r (_ ++ early)).
      now rewrite stops_at_failure_app.
  - set (tail := (if fin <? 0
                  then [Perror "Error trying to change setting"] else [])
                 ++ [Call (close sock) rc]).
    assert (Ttail : forall kind, kind (close sock) = false ->
                                 calls kind tail = false)
      by (intros; now apply perror_tail_calls).
    assert (HSk : forall kind,
               (forall c, is_setter c = true -> kind c = false) ->
               calls kind S = false).
    { intros kind Hk. destruct (st =? 0).
      - exact (session_calls _ _ _ _ kind Hk HS).
      - destruct HS as [-> _]. reflexivity. }
    split; [right|split].
    + exists (timeouts sock r1 r2), sock, addr, st, S, tail.
      split; [reflexivity|]. split; [reflexivity|].
      split; [reflexivity|]. split; [apply HSk; now intros []|].
      split; [now apply Ttail|exact HS].
    + exact B.
    + apply stops_at_failure_spec. fold tail.
      change (stops_at_failure
                ((timeouts sock r1 r2 ++ [Call (connect sock addr) 0])
                 ++ Call (init_connection sock) st :: S ++ tail) = true).
      rewrite stops_at_failure_app by reflexivity.
      cbn [stops_at_failure is_protocol is_init is_setter orb andb].
      destruct (Z.eqb_spec st 0) as [Hst|Hst]; cbn [negb].
      * apply stops_at_failure_app_r; [exact (session_stops _ _ _ _ HS)|].
        now apply Ttail.
      * destruct HS as [-> _]. cbn [app].
        now rewrite (Ttail is_setter eq_refl).
Qed.

(** C6.  In every run of [main], the [setsockopt] calls are, in order,
    the first [k] of two calls: the send timeout set to 5 seconds, then
    the receive timeout set to 1 second.  Either the run performs no
    protocol operation, or its trace starts with the creation of the
    socket and these two calls, both successful, and holds no
    [setsockopt] call after them. *)
Theorem timeouts_set_once argv :
  let t := trace (snd (run argv)) in
  exists sock,
    let set_send :=
      setsockopt sock SOL_SOCKET SO_SNDTIMEO {| tv_sec := 5; tv_usec := 0 |} in
    let set_receive :=
      setsockopt sock SOL_SOCKET SO_RCVTIMEO {| tv_sec := 1; tv_usec := 0 |} in
    (exists k, setsockopt_calls t = firstn k [set_send; set_receive])
    /\ (calls is_protocol t = false \/
        exists r1 r2 rest,
          0 <= r1 /\ 0 <= r2 /\
          t = [Call (socket AF_BLUETOOTH SOCK_STREAM BTPROTO_RFCOMM) sock;
               Call set_send r1; Call set_receive r2] ++ rest
          /\ calls is_setsockopt rest = false).
Proof.
  intros t. subst t.
  destruct (main_shape argv) as (status & w & Hrun & Hshape).
  rewrite Hrun. cbn [snd].
  destruct Hshape as [sock r1 H1|sock r1 r2 early st H1 He Hwhy
                     |sock r1 r2 addr st S fin rc H1 H2 HS];
    exists sock; cbv zeta.
  - split; [now exists 1%nat|now left].
  - destruct (before_session_calls early He) as (E1 & E2 & E3).
    split; [|left; now rewrite calls_app, E1].
    exists 2%nat. rewrite setsockopt_calls_app.
    rewrite (no_setsockopt_calls early E2). reflexivity.
  - set (tail := _ ++ [Call (close sock) rc]).
    assert (HS' : calls is_setsockopt S = false).
    { destruct (st =? 0).
      - apply (session_calls _ _ _ _ is_setsockopt) in HS; [exact HS|].
        now intros [].
      - now destruct HS as [-> _]. }
    assert (Htail : calls is_setsockopt tail = false)
      by now apply perror_tail_calls.
    split.
    + exists 2%nat. rewrite !setsockopt_calls_app.
      rewrite (no_setsockopt_calls S HS'), (no_setsockopt_calls tail Htail).
      reflexivity.
    + right. exists r1, r2,
        ([Call (connect sock addr) 0; Call (init_connection sock) st]
         ++ S ++ tail).
      repeat split; try assumption.
      rewrite !calls_app, HS', Htail. reflexivity.
Qed.

(** C5 (the code departs from the claim).  On the command line
    [program -h], whatever the environment answers, [main] creates the
    socket and returns without closing it: the trace starts with the
    [socket] call and holds no [close] call. *)
Theorem help_exit_leaves_socket_open program :
  let t := trace (snd (run [program; lit "-h"])) in
  (exists sock rest,
      t = Call (socket AF_BLUETOOTH SOCK_STREAM BTPROTO_RFCOMM) sock :: rest)
  /\ calls is_close t = false.
Proof.
  intros t. subst t. unfold run, main.
  next_call. set (sock := env (trace initial) _). next_call.
  match goal with |- context [if ?r <? 0 then _ else _] => set (r1 := r) end.
  destruct (r1 <? 0).
  { next_call. split; [eexists sock, _; reflexivity|reflexivity]. }
  next_call.
  match goal with |- context [if ?r <? 0 then _ else _] => set (r2 := r) end.
  destruct (r2 <? 0).
  { next_call. split; [eexists sock, _; reflexivity|reflexivity]. }
  split; [eexists sock, _; reflexivity|reflexivity].
Qed.

(** C10.  On a command line that holds the address and nothing else,
    when both timeouts can be set and the connection succeeds, [main]
    connects, calls [init_connection] once, calls no setter, closes the
    socket, and returns the result of [init_connection]. *)
Theorem address_only_run program addr :
  Getopt.is_nonoption addr = true ->
  (forall h sock level name tv, 0 <= env h (setsockopt sock level name tv)) ->
  (forall h sock a, env h (connect sock a) = 0) ->
  exists sock r1 r2 status rc w,
    run [program; addr] = (Done status, w) /\
    trace w =
      [Call (socket AF_BLUETOOTH SOCK_STREAM BTPROTO_RFCOMM) sock;
       Call (setsockopt sock SOL_SOCKET SO_SNDTIMEO send_timeout) r1;
       Call (setsockopt sock SOL_SOCKET SO_RCVTIMEO recieve_timeout) r2;
       Call (connect sock {| rc_family := AF_BLUETOOTH;
                             rc_bdaddr := str2ba addr;
                             rc_channel := BOSE_CHANNEL |}) 0;
       Call (init_connection sock) status]
      ++ (if status <? 0
          then [Perror "Error trying to change setting"] else [])
      ++ [Call (close sock) rc].
Proof.
  intros Haddr Hopt Hconn. unfold run, main.
  next_call. set (sock := env (trace initial) _). next_call.
  match goal with |- context [if ?r <? 0 then _ else _] => set (r1 := r) end.
  destruct (Z.ltb_spec r1 0) as [H1|_].
  { pose proof (Hopt (trace (emit (Call (socket AF_BLUETOOTH SOCK_STREAM
                                            BTPROTO_RFCOMM) sock) initial))
                  sock SOL_SOCKET SO_SNDTIMEO send_timeout).
    fold r1 in H. lia. }
  next_call.
  match goal with |- context [if ?r <? 0 then _ else _] => set (r2 := r) end.
  destruct (Z.ltb_spec r2 0) as [H2|_].
  { subst r2. match type of H2 with env ?h ?c < 0 =>
      pose proof (Hopt h sock SOL_SOCKET SO_RCVTIMEO recieve_timeout) end.
    lia. }
  cbn [tl hd_error]. rewrite scan_single_operand by exact Haddr.
  unfold Getopt.permuted, Getopt.optind_after. fields.
  cbn [verify_loop firstn app List.length nth_error tl]. next_call.
  change (Z.of_nat 2 - 1 =? 1 + Z.of_nat 0 + Z.of_nat 0) with true.
  cbn [negb]. change (Z.to_nat (1 + Z.of_nat 0 + Z.of_nat 0)) with 1%nat.
  cbn [nth_error deref]. next_call. next_call.
  rewrite Hconn. cbn [Z.eqb negb]. next_call.
  rewrite scan_single_operand by exact Haddr. fields.
  cbn [settings_loop]. next_call.
  match goal with |- context [if ?s <? 0 then _ else _] => set (st := s) end.
  destruct (st <? 0) eqn:Hst; next_call; next_call;
    eexists sock, r1, r2, st, _, _; (split; [reflexivity|]);
    rewrite Hst; reflexivity.
Qed.


(* ---------------------------------------------------------------- *)
(** *** Exit status and end of the run *)

Lemma calls_In kind c z t :
  In (Call c z) t -> kind c = true -> calls kind t = true.
Proof.
  intros Hin Hk. apply existsb_exists. exists (Call c z). now split.
Qed.

(** A session that ends with status 0 called the setter of every option,
    each with result 0. *)
Lemma session_all_applied sock rs S status :
  session sock rs S status -> status = 0 ->
  exists cs,
    S = map (fun c => Call c 0) cs
    /\ map Some cs = map (setter_call sock) rs.
Proof.
  induction 1 as [|r rs c t st Hc _ IH|r rs c st Hc Hst|r rs Hr];
    intros Hz; try congruence.
  - now exists [].
  - destruct (IH Hz) as (cs & -> & Hcs). exists (c :: cs).
    split; [reflexivity|]. simpl. now rewrite Hcs, Hc.
Qed.

(** The status of a session is the result of its failed call, if any. *)
Lemma session_failure_status sock rs S status c z :
  session sock rs S status -> In (Call c z) S -> z <> 0 -> status = z.
Proof.
  induction 1 as [|r rs c' t st Hc _ IH|r rs c' st Hc Hst|r rs Hr];
    intros Hin Hz.
  - destruct Hin.
  - destruct Hin as [E|Hin]; [congruence|now apply IH].
  - destruct Hin as [E|[]]. congruence.
  - exfalso. pose proof (rejection_no_call r (fun _ => true)) as H.
    rewrite (calls_In (fun _ => true) c z [rejection r] Hin eq_refl) in H.
    discriminate.
Qed.

Lemma setter_calls_successes cs :
  Forall (fun c => is_setter c = true) cs ->
  setter_calls (map (fun c => Call c 0) cs) = cs.
Proof.
  induction 1 as [|c cs Hc _ IH]; [reflexivity|].
  simpl. now rewrite Hc, IH.
Qed.

Lemma setter_call_list sock rs cs :
  map Some cs = map (setter_call sock) rs ->
  Forall (fun c => is_setter c = true) cs.
Proof.
  revert rs. induction cs as [|c cs IH]; intros [|r rs] H; try discriminate;
    constructor.
  - simpl in H. injection H as H _.
    now apply (setter_call_is_setter sock r).
  - simpl in H. injection H as _ H. now apply (IH rs).
Qed.

(** X1.  For every command line, every environment and either ordering
    of [getopt_long], the run of [main] ends with [main] returning a
    status, and in none of the ways to die that the model follows: the
    [abort()] of the second loop is not reached (the second scan yields
    the options the first loop let through, all among [n], [c], [o] and
    [l]); no handler reads through a null [optarg] (these options all take
    an argument); [set_auto_off] is not called with the uninitialised
    [ao]; [argv[optind]] is not null where [str2ba] reads it (there is
    exactly one operand).  What [usage] prints is [argv[0]] as it is, null
    on an empty [argv]: it is recorded as the argument of [printf] and
    lies outside this statement. *)
Theorem main_always_returns argv :
  (exists status w, run argv = (Done status, w))
  /\ forall k, fst (run argv) <> Crashed k.
Proof.
  destruct (main_shape argv) as (status & w & Hrun & _).
  split; [now exists status, w|].
  intros k. rewrite Hrun. discriminate.
Qed.

(** X2.  When a protocol operation (the handshake or a setter) returns a
    nonzero result, that result is the exit status of [main]. *)
Theorem failure_status_returned argv status w c z :
  run argv = (Done status, w) ->
  In (Call c z) (trace w) ->
  is_protocol c = true ->
  z <> 0 ->
  status = z.
Proof.
  intros Hrun' Hin Hc Hz.
  destruct (main_shape argv) as (status' & w' & Hrun & Hshape).
  rewrite Hrun in Hrun'. injection Hrun' as -> ->.
  destruct Hshape as [sock r1 H1|sock r1 r2 early st H1 He Hwhy
                     |sock r1 r2 addr st S fin rc H1 H2 HS].
  - exfalso. pose proof (calls_In is_protocol c z _ Hin Hc) as H.
    discriminate.
  - exfalso. pose proof (calls_In is_protocol c z _ Hin Hc) as H.
    destruct (before_session_calls early He) as (E1 & _).
    rewrite calls_app, E1 in H. discriminate.
  - apply in_app_or in Hin as [Hin|Hin].
    { exfalso. pose proof (calls_In is_protocol c z _ Hin Hc) as H.
      discriminate. }
    apply in_app_or in Hin as [Hin|Hin].
    { destruct Hin as [E|[E|[]]].
      - injection E as <- _. discriminate.
      - injection E as _ ->. apply Z.eqb_neq in Hz. rewrite Hz in HS.
        now destruct HS. }
    apply in_app_or in Hin as [Hin|Hin].
    { destruct (st =? 0).
      - exact (session_failure_status _ _ _ _ _ _ HS Hin Hz).
      - destruct HS as [-> _]. destruct Hin. }
    exfalso. pose proof (calls_In is_protocol c z _ Hin Hc) as H.
    rewrite perror_tail_calls in H by reflexivity. discriminate.
Qed.

(** X3.  When [main] returns 0 after attempting the handshake, it has
    called one setter for every option of the command line, in the order
    of the command line, and the trace holds no other setter call. *)
Theorem exit_zero_all_applied argv w :
  run argv = (Done 0, w) ->
  calls is_init (trace w) = true ->
  exists sock,
    map Some (setter_calls (trace w))
    = map (setter_call sock)
        (Getopt.rets (Getopt.scan short_opt long_opt (tl argv))).
Proof.
  intros Hrun' Hinit.
  destruct (main_shape argv) as (status' & w' & Hrun & Hshape).
  rewrite Hrun in Hrun'. injection Hrun' as Hzero ->.
  destruct Hshape as [sock r1 H1|sock r1 r2 early st H1 He Hwhy
                     |sock r1 r2 addr st S fin rc H1 H2 HS].
  - discriminate.
  - destruct (before_session_calls early He) as (E1 & _).
    assert (E : calls is_init early = false).
    { clear - E1. induction early as [|e early IH]; [reflexivity|].
      destruct e as [c z| | | |]; simpl in *; try (now apply IH).
      apply orb_false_iff in E1 as [Hc E1]. rewrite (IH E1).
      unfold is_protocol in Hc. now apply orb_false_iff in Hc as [-> _]. }
    rewrite calls_app, E in Hinit. discriminate.
  - exists sock. destruct (Z.eqb_spec st 0) as [->|Hst].
    + destruct (session_all_applied _ _ _ _ HS Hzero) as (cs & -> & Hcs).
      set (tail := _ ++ [Call (close sock) rc]).
      rewrite !setter_calls_app.
      rewrite (no_setter_calls tail) by now apply perror_tail_calls.
      rewrite setter_calls_successes by exact (setter_call_list _ _ _ Hcs).
      cbn [timeouts setter_calls is_setter app]. now rewrite app_nil_r.
    + destruct HS as [_ E]. congruence.
Qed.

(** X4.  Once the handshake has been attempted, [main] ends by closing
    the socket it created: the [close] call is the last event and the only
    [close] of the run, and the message [Error trying to change setting]
    is printed just before it exactly when the exit status is negative. *)
Theorem session_ends_with_close argv status w :
  run argv = (Done status, w) ->
  calls is_init (trace w) = true ->
  exists sock body rc,
    trace w =
      Call (socket AF_BLUETOOTH SOCK_STREAM BTPROTO_RFCOMM) sock :: body
      ++ (if status <? 0
          then [Perror "Error trying to change setting"] else [])
      ++ [Call (close sock) rc]
    /\ calls is_close body = false
    /\ ~ In (Perror "Error trying to change setting") body.
Proof.
  intros Hrun' Hinit.
  destruct (main_shape argv) as (status' & w' & Hrun & Hshape).
  rewrite Hrun in Hrun'. injection Hrun' as -> ->.
  destruct Hshape as [sock r1 H1|sock r1 r2 early st H1 He Hwhy
                     |sock r1 r2 addr st S fin rc H1 H2 HS].
  - discriminate.
  - destruct (before_session_calls early He) as (E1 & _).
    assert (E : calls is_init early = false).
    { clear - E1. induction early as [|e early IH]; [reflexivity|].
      destruct e as [c z| | | |]; simpl in *; try (now apply IH).
      apply orb_false_iff in E1 as [Hc E1]. rewrite (IH E1).
      unfold is_protocol in Hc. now apply orb_false_iff in Hc as [-> _]. }
    rewrite calls_app, E in Hinit. discriminate.
  - exists sock,
      ([Call (setsockopt sock SOL_SOCKET SO_SNDTIMEO send_timeout) r1;
        Call (setsockopt sock SOL_SOCKET SO_RCVTIMEO recieve_timeout) r2;
        Call (connect sock addr) 0; Call (init_connection sock) st] ++ S),
      rc.
    assert (HS' : calls is_close S = false
                  /\ ~ In (Perror "Error trying to change setting") S).
    { destruct (st =? 0).
      - split.
        + apply (session_calls _ _ _ _ is_close) in HS; [exact HS|].
          now intros [].
        + clear - HS.
          induction HS as [|r rs c t st' Hc _ IH|r rs c st' Hc Hst|r rs Hr];
            simpl; try tauto.
          * intros [E|H]; [discriminate|tauto].
          * intros [E|[]]. discriminate.
          * intros [E|[]]. destruct r as [letter a|d]; simpl in E;
              [|discriminate].
            repeat (match type of E with
                    | (if ?b then _ else _) = _ => destruct b
                    end); discriminate.
      - destruct HS as [-> _]. split; [reflexivity|tauto]. }
    destruct HS' as [HS1 HS2]. split; [|split].
    + cbn [timeouts app]. reflexivity.
    + rewrite calls_app, HS1. reflexivity.
    + intros Hin. apply in_app_or in Hin as [Hin|Hin]; [|tauto].
      simpl in Hin. destruct Hin as [E|[E|[E|[E|[]]]]]; discriminate.
Qed.


(* ---------------------------------------------------------------- *)
(** *** The paths through [main] *)

Lemma hd_error_permuted argv :
  hd_error (Getopt.permuted argv (Getopt.scan short_opt long_opt (tl argv)))
  = hd_error argv.
Proof. now destruct argv. Qed.

(** The first loop at [-h]: the usage text, and [main] returns 0. *)
Lemma verify_loop_at_help program pre post w :
  Forall from_tables pre -> forallb passes pre = true ->
  verify_loop program (pre ++ Getopt.opt "h" None :: post) w
  = (Done (Some 0),
     {| trace := trace w ++ [Stdout usage_text [arg_str program]];
        optarg := None |}).
Proof.
  intros Hpre. revert w. induction Hpre as [|r rs Hr _ IH]; intros w Hp.
  - reflexivity.
  - cbn [forallb] in Hp. apply andb_true_iff in Hp as [Hp Hps].
    destruct (setting_letter r Hr Hp) as (c & a & -> & Hc).
    specialize (IH (with_optarg (Some a) w) Hps).
    cbn [app verify_loop getopt_long]. run_prog.
    fold (with_optarg (Some a) w).
    destruct Hc as [<-|[<-|[<-|[<-|[]]]]]; exact IH.
Qed.

(** The first loop at an error of [getopt_long]: its diagnostic, and
    [main] returns 1. *)
Lemma verify_loop_at_error program pre d post w :
  Forall from_tables pre -> forallb passes pre = true ->
  verify_loop program (pre ++ Getopt.err d :: post) w
  = (Done (Some 1),
     {| trace := trace w ++ [GetoptDiag d]; optarg := None |}).
Proof.
  intros Hpre. revert w. induction Hpre as [|r rs Hr _ IH]; intros w Hp.
  - reflexivity.
  - cbn [forallb] in Hp. apply andb_true_iff in Hp as [Hp Hps].
    destruct (setting_letter r Hr Hp) as (c & a & -> & Hc).
    specialize (IH (with_optarg (Some a) w) Hps).
    cbn [app verify_loop getopt_long]. run_prog.
    fold (with_optarg (Some a) w).
    destruct Hc as [<-|[<-|[<-|[<-|[]]]]]; exact IH.
Qed.

Lemma expected_session_status sock rs :
  snd (expected_session sock rs) = 0 \/ snd (expected_session sock rs) = 1.
Proof.
  induction rs as [|r rs IH]; simpl; [now left|].
  destruct (setter_call sock r); [|now right].
  now destruct (expected_session sock rs).
Qed.

(** The second loop with setters that all return 0. *)
Lemma settings_loop_obliging sock rs :
  (forall h c, is_setter c = true -> env h c = 0) ->
  Forall from_tables rs -> forallb passes rs = true ->
  forall w, exists o,
    settings_loop sock rs 0 w
    = (Done (snd (expected_session sock rs)),
       {| trace := trace w ++ fst (expected_session sock rs);
          optarg := o |}).
Proof.
  intros Hset Hrs. induction Hrs as [|r rs Hr Hrs IH]; intros Hp w.
  - exists (optarg w). simpl. rewrite app_nil_r. now destruct w.
  - cbn [forallb] in Hp. apply andb_true_iff in Hp as [Hp Hps].
    destruct (setting_letter r Hr Hp) as (c & a & -> & Hc).
    rewrite (settings_loop_step sock c a rs w Hc). cbv zeta.
    cbn [expected_session].
    destruct (setter_call sock (Getopt.opt c (Some a))) as [cl|] eqn:Ecl.
    + rewrite (Hset _ cl (setter_call_is_setter _ _ _ Ecl)).
      destruct (IH Hps (emit (Call cl 0) (with_optarg (Some a) w)))
        as (o & Ho).
      exists o. rewrite Ho.
      destruct (expected_session sock rs) as [t st].
      cbn [fst snd trace emit with_optarg]. now rewrite <- app_assoc.
    + destruct (settings_loop_failed sock rs 1
                  (emit (rejection (Getopt.opt c (Some a)))
                     (with_optarg (Some a) w))
                  ltac:(discriminate) Hrs Hps) as [o Ho].
      exists o. exact Ho.
Qed.

(** The start of [main] when both timeouts can be set. *)
Ltac enter_main Hopt sock r1 r2 :=
  unfold run, main; next_call;
  set (sock := env (trace initial) _); next_call;
  match goal with |- context [if ?r <? 0 then _ else _] => set (r1 := r) end;
  destruct (Z.ltb_spec r1 0);
  [ exfalso;
    pose proof (Hopt (trace (emit (Call (socket AF_BLUETOOTH SOCK_STREAM
                                           BTPROTO_RFCOMM) sock) initial))
                  sock SOL_SOCKET SO_SNDTIMEO send_timeout);
    subst r1; lia | ];
  next_call;
  match goal with |- context [if ?r <? 0 then _ else _] => set (r2 := r) end;
  destruct (Z.ltb_spec r2 0);
  [ exfalso;
    pose proof (Hopt (trace (emit (Call (setsockopt sock SOL_SOCKET
                                           SO_SNDTIMEO send_timeout) r1)
                               (emit (Call (socket AF_BLUETOOTH SOCK_STREAM
                                              BTPROTO_RFCOMM) sock) initial)))
                  sock SOL_SOCKET SO_RCVTIMEO recieve_timeout);
    subst r2; lia | ].


(** X5.  When a timeout cannot be set, [main] returns 1 at once, after
    the matching [perror] message: whatever the command line holds, it is
    not examined and nothing is connected. *)
Theorem timeout_failure_exits argv :
  let open := socket AF_BLUETOOTH SOCK_STREAM BTPROTO_RFCOMM in
  let sock := env [] open in
  let set_send := setsockopt sock SOL_SOCKET SO_SNDTIMEO send_timeout in
  let set_receive := setsockopt sock SOL_SOCKET SO_RCVTIMEO recieve_timeout in
  let r1 := env [Call open sock] set_send in
  let r2 := env [Call open sock; Call set_send r1] set_receive in
  (r1 < 0 ->
   run argv
   = (Done 1,
      {| trace := [Call open sock; Call set_send r1;
                   Perror "Could not set socket send timeout"];
         optarg := None |}))
  /\ (0 <= r1 -> r2 < 0 ->
      run argv
      = (Done 1,
         {| trace := [Call open sock; Call set_send r1; Call set_receive r2;
                      Perror "Could not set socket recieve timeout"];
            optarg := None |})).
Proof.
  intros open sock set_send set_receive r1 r2. split.
  - intros H1. apply Z.ltb_lt in H1.
    subst r1 r2 set_receive set_send sock open.
    unfold run, main, bind, invoke, perror, log, ret.
    cbn [trace emit initial app]. now rewrite H1.
  - intros H1 H2. apply Z.ltb_ge in H1. apply Z.ltb_lt in H2.
    subst r1 r2 set_receive set_send sock open.
    unfold run, main, bind, invoke, perror, log, ret.
    cbn [trace emit initial app]. rewrite H1.
    cbn [trace emit initial app]. now rewrite H2.
Qed.


(** X6.  When both timeouts can be set and [-h] (or [--help]) comes
    before any error of [getopt_long], [main] prints the usage text and
    returns 0 without connecting, whatever else the command line holds:
    later errors, invalid setting values, a missing address.  The
    options are those [getopt_long] yields under the ordering in force:
    with [POSIXLY_CORRECT] set, an [-h] behind the first operand is none
    of them. *)
Theorem help_exits_before_connecting argv pre post :
  (forall h sock level name tv, 0 <= env h (setsockopt sock level name tv)) ->
  Getopt.rets (Getopt.scan short_opt long_opt (tl argv))
    = pre ++ Getopt.opt "h" None :: post ->
  forallb passes pre = true ->
  exists sock r1 r2 w,
    run argv = (Done 0, w)
    /\ trace w
       = timeouts sock r1 r2 ++ [Stdout usage_text [arg_str (hd_error argv)]].
Proof.
  intros Hopt Hrets Hp.
  pose proof (scan_from_tables (tl argv)) as Hft. rewrite Hrets in Hft.
  apply Forall_app in Hft as [Hft _].
  enter_main Hopt sock r1 r2. rewrite Hrets.
  erewrite bind_done by (now apply verify_loop_at_help).
  cbv beta iota. eexists sock, r1, r2, _. split; reflexivity.
Qed.

(** X7.  When both timeouts can be set and an error of [getopt_long] (an
    unknown option, a missing option argument, an ambiguous abbreviation)
    comes before any [-h], [main] returns 1 after the diagnostic, without
    connecting.  The errors are those [getopt_long] reports under the
    ordering in force: with [POSIXLY_CORRECT] set, what follows the first
    operand is not examined. *)
Theorem option_error_exits argv pre d post :
  (forall h sock level name tv, 0 <= env h (setsockopt sock level name tv)) ->
  Getopt.rets (Getopt.scan short_opt long_opt (tl argv))
    = pre ++ Getopt.err d :: post ->
  forallb passes pre = true ->
  exists sock r1 r2 w,
    run argv = (Done 1, w)
    /\ trace w = timeouts sock r1 r2 ++ [GetoptDiag d].
Proof.
  intros Hopt Hrets Hp.
  pose proof (scan_from_tables (tl argv)) as Hft. rewrite Hrets in Hft.
  apply Forall_app in Hft as [Hft _].
  enter_main Hopt sock r1 r2. rewrite Hrets.
  erewrite bind_done by (now apply verify_loop_at_error).
  cbv beta iota. eexists sock, r1, r2, _. split; reflexivity.
Qed.

(** X8.  When both timeouts can be set and all options pass the first
    loop, a command line without an address, or with more than one, makes
    [main] print the matching message and the usage text and return 1,
    without connecting. *)
Theorem address_count_enforced argv :
  let s := Getopt.scan short_opt long_opt (tl argv) in
  (forall h sock level name tv, 0 <= env h (setsockopt sock level name tv)) ->
  forallb passes (Getopt.rets s) = true ->
  List.length (Getopt.operands s) <> 1%nat ->
  exists sock r1 r2 w,
    run argv = (Done 1, w)
    /\ trace w
       = timeouts sock r1 r2
         ++ [Stderr
               match Getopt.operands s with
               | [] => "An address argument must be given.\n"
               | _ :: _ => "Only one address argument may be given.\n"
               end%string [];
             Stdout usage_text [arg_str (hd_error argv)]].
Proof.
  intros s Hopt Hp Hops.
  pose proof (scan_from_tables (tl argv)) as Hft. fold s in Hft.
  destruct (address_count argv) as [Hcount Hnone]. fold s in Hcount, Hnone.
  enter_main Hopt sock r1 r2. fold s.
  match goal with
  | |- context [bind (verify_loop _ _) _ ?w] => set (w2 := w)
  end.
  destruct (verify_loop_passes (hd_error argv) _ w2 Hft Hp) as (o & Hv).
  erewrite bind_done by exact Hv. cbv beta iota.
  rewrite Hcount, Hnone, hd_error_permuted.
  apply Nat.eqb_neq in Hops. rewrite Hops. cbn [negb].
  next_call. next_call. eexists sock, r1, r2, _. split; [reflexivity|].
  destruct (Getopt.operands s); reflexivity.
Qed.


(** With a single operand [a], [argv[optind]] is [a]. *)
Lemma single_operand argv a :
  let s := Getopt.scan short_opt long_opt (tl argv) in
  Getopt.operands s = [a] ->
  (Z.of_nat (List.length argv) - 1 =? Getopt.optind_after s) = true
  /\ nth_error (Getopt.permuted argv s) (Z.to_nat (Getopt.optind_after s))
     = Some a.
Proof.
  intros s Hops. destruct (address_count argv) as [Hcount _].
  fold s in Hcount. rewrite Hops in Hcount. split; [exact Hcount|].
  apply Z.eqb_eq in Hcount.
  destruct (address_operand short_opt long_opt argv Hcount) as (a' & E & Hn).
  fold s in E, Hn. rewrite Hops in E. injection E as <-. exact Hn.
Qed.

(** From the first loop to the result of [connect]. *)
Ltac to_connect argv a Hp Hops rc :=
  let Hft := fresh "Hft" in
  let Hre := fresh "Hre" in
  let Hone := fresh "Hone" in
  let Hnth := fresh "Hnth" in
  let Hv := fresh "Hv" in
  let o := fresh "o" in
  pose proof (scan_from_tables (tl argv)) as Hft;
  pose proof (rescan short_opt long_opt argv (passes_no_error _ Hp)) as Hre;
  cbv zeta in Hre;
  destruct (single_operand argv a Hops) as [Hone Hnth];
  match goal with
  | |- context [bind (verify_loop _ _) _ ?w] =>
      destruct (verify_loop_passes (hd_error argv) _ w Hft Hp) as (o & Hv)
  end;
  erewrite bind_done by exact Hv; cbv beta iota;
  rewrite Hone, Hnth; cbn [negb deref]; next_call; next_call;
  match goal with |- context [negb (?r =? 0)] => set (rc := r) end.

(** X9.  When both timeouts can be set, the options pass the first loop
    and there is one address, a failing [connect] makes [main] print its
    message and return 1: the connection is attempted once, to the given
    address on [BOSE_CHANNEL], and no protocol operation follows.  Options
    and operands are those of the scan under the ordering in force. *)
Theorem connect_failure_exits argv a :
  (forall h sock level name tv, 0 <= env h (setsockopt sock level name tv)) ->
  (forall h sock address, env h (connect sock address) <> 0) ->
  forallb passes (Getopt.rets (Getopt.scan short_opt long_opt (tl argv)))
    = true ->
  Getopt.operands (Getopt.scan short_opt long_opt (tl argv)) = [a] ->
  exists sock r1 r2 rc w,
    rc <> 0
    /\ run argv = (Done 1, w)
    /\ trace w
       = timeouts sock r1 r2
         ++ [Call (connect sock (address_of a)) rc;
             Perror "Could not connect to Bluetooth device"].
Proof.
  intros Hopt Hconn Hp Hops.
  enter_main Hopt sock r1 r2. to_connect argv a Hp Hops rc.
  assert (Hrc : rc <> 0) by apply Hconn.
  apply Z.eqb_neq in Hrc as Hrc'. rewrite Hrc'. cbn [negb]. next_call.
  eexists sock, r1, r2, rc, _. split; [exact Hrc|]. split; reflexivity.
Qed.

(** X10.  When the connection succeeds and the handshake fails, [main]
    calls no setter, whatever options were given: it prints the [perror]
    message if the status is negative, closes the socket and returns the
    status of the handshake.  Options and operands are those of the scan
    under the ordering in force. *)
Theorem handshake_failure_skips_settings argv a :
  (forall h sock level name tv, 0 <= env h (setsockopt sock level name tv)) ->
  (forall h sock address, env h (connect sock address) = 0) ->
  (forall h sock, env h (init_connection sock) <> 0) ->
  forallb passes (Getopt.rets (Getopt.scan short_opt long_opt (tl argv)))
    = true ->
  Getopt.operands (Getopt.scan short_opt long_opt (tl argv)) = [a] ->
  exists sock r1 r2 status rc w,
    status <> 0
    /\ run argv = (Done status, w)
    /\ trace w
       = timeouts sock r1 r2
         ++ [Call (connect sock (address_of a)) 0;
             Call (init_connection sock) status]
         ++ (if status <? 0
             then [Perror "Error trying to change setting"] else [])
         ++ [Call (close sock) rc].
Proof.
  intros Hopt Hconn Hinit Hp Hops.
  enter_main Hopt sock r1 r2. to_connect argv a Hp Hops rc.
  assert (Hrc : rc = 0) by apply Hconn.
  rewrite Hrc. cbn [Z.eqb negb]. next_call. rewrite Hre.
  match goal with
  | |- context [bind (settings_loop _ _ ?x) _ ?w] => set (st := x); set (w5 := w)
  end.
  assert (Hst : st <> 0) by apply Hinit.
  destruct (settings_loop_failed sock _ st w5 Hst Hft Hp) as (o' & Hl).
  erewrite bind_done by exact Hl. cbv beta.
  destruct (st <? 0) eqn:Hneg; next_call; next_call;
    eexists sock, r1, r2, st, _, _; (split; [exact Hst|]);
    (split; [reflexivity|]); rewrite Hneg; reflexivity.
Qed.

(** The run with a headset that accepts every request, on the socket
    that [socket] returns. *)
Lemma accepting_run argv a :
  let options := Getopt.rets (Getopt.scan short_opt long_opt (tl argv)) in
  let sock := env [] (socket AF_BLUETOOTH SOCK_STREAM BTPROTO_RFCOMM) in
  (forall h fd level name tv, 0 <= env h (setsockopt fd level name tv)) ->
  (forall h fd address, env h (connect fd address) = 0) ->
  (forall h fd, env h (init_connection fd) = 0) ->
  (forall h c, is_setter c = true -> env h c = 0) ->
  forallb passes options = true ->
  Getopt.operands (Getopt.scan short_opt long_opt (tl argv)) = [a] ->
  exists r1 r2 rc w,
    run argv = (Done (snd (expected_session sock options)), w)
    /\ trace w
       = timeouts sock r1 r2
         ++ [Call (connect sock (address_of a)) 0;
             Call (init_connection sock) 0]
         ++ fst (expected_session sock options)
         ++ [Call (close sock) rc].
Proof.
  intros options sk Hopt Hconn Hinit Hset Hp Hops. subst options sk.
  enter_main Hopt sock r1 r2. to_connect argv a Hp Hops rc.
  assert (Hrc : rc = 0) by apply Hconn.
  rewrite Hrc. cbn [Z.eqb negb]. next_call. rewrite Hre, Hinit.
  match goal with
  | |- context [bind (settings_loop _ _ _) _ ?w] => set (w5 := w)
  end.
  destruct (settings_loop_obliging sock _ Hset Hft Hp w5) as (o' & Hl).
  erewrite bind_done by exact Hl. cbv beta.
  assert (Hneg : (snd (expected_session sock
                         (Getopt.rets
                            (Getopt.scan short_opt long_opt (tl argv))))
                  <? 0) = false).
  { apply Z.ltb_ge.
    destruct (expected_session_status sock
                (Getopt.rets (Getopt.scan short_opt long_opt (tl argv))));
      lia. }
  rewrite Hneg. next_call. next_call.
  eexists r1, r2, _, _. split; [reflexivity|].
  cbn [trace emit]. subst w5. cbn [trace emit with_optarg initial].
  rewrite ?Hinit. cbn [timeouts app]. rewrite <- ?app_assoc. reflexivity.
Qed.

(** A session that reaches a rejected option: the setters of the options
    before it, then its message, and status 1. *)
Lemma expected_session_rejects sock done cs r rest :
  map (setter_call sock) done = map Some cs ->
  setter_call sock r = None ->
  expected_session sock (done ++ r :: rest)
  = (map (fun c => Call c 0) cs ++ [rejection r], 1).
Proof.
  revert cs. induction done as [|d done IH]; intros [|c cs] H Hr;
    try discriminate.
  - cbn [app expected_session map]. now rewrite Hr.
  - cbn [map] in H. injection H as Hd H.
    cbn [app expected_session map]. now rewrite Hd, (IH cs H Hr).
Qed.

(** X11.  With a headset that accepts every request (both timeouts can be
    set, [connect], the handshake and every setter return 0), on a command
    line whose options pass the first loop and which has one address,
    [main] connects to that address, performs the handshake and applies
    the settings in the order of the command line, each setter once, up to
    the first argument it rejects; it closes the socket and returns 0 if
    every setting was applied and 1 after a rejection.  Options and
    operands are those of the scan under the ordering in force: with
    [POSIXLY_CORRECT] set, the options must come before the address. *)
Theorem obliging_headset_run argv a :
  let options := Getopt.rets (Getopt.scan short_opt long_opt (tl argv)) in
  (forall h sock level name tv, 0 <= env h (setsockopt sock level name tv)) ->
  (forall h sock address, env h (connect sock address) = 0) ->
  (forall h sock, env h (init_connection sock) = 0) ->
  (forall h c, is_setter c = true -> env h c = 0) ->
  forallb passes options = true ->
  Getopt.operands (Getopt.scan short_opt long_opt (tl argv)) = [a] ->
  exists sock r1 r2 rc w,
    run argv = (Done (snd (expected_session sock options)), w)
    /\ trace w
       = timeouts sock r1 r2
         ++ [Call (connect sock (address_of a)) 0;
             Call (init_connection sock) 0]
         ++ fst (expected_session sock options)
         ++ [Call (close sock) rc].
Proof.
  intros options Hopt Hconn Hinit Hset Hp Hops.
  destruct (accepting_run argv a Hopt Hconn Hinit Hset Hp Hops)
    as (r1 & r2 & rc & w & Hrun & Ht).
  eexists _, r1, r2, rc, w. split; [exact Hrun|exact Ht].
Qed.

(** C4 (the code departs from the claim).  With a headset that accepts
    every request, on a command line with one address whose options pass
    the first loop, an argument outside the closed enumeration of its
    setting is rejected only in the second loop: [main] has by then
    connected, performed the handshake and called the setter of every
    option before it, each of which was applied.  The message of the
    rejection follows these calls, no setter of a later option is called,
    the socket is closed and [main] returns 1.  The first loop, which
    runs before the connection, examines the option letters only. *)
Theorem invalid_setting_rejected_in_session argv a done cs r rest :
  let s := Getopt.scan short_opt long_opt (tl argv) in
  let sock := env [] (socket AF_BLUETOOTH SOCK_STREAM BTPROTO_RFCOMM) in
  (forall h fd level name tv, 0 <= env h (setsockopt fd level name tv)) ->
  (forall h fd address, env h (connect fd address) = 0) ->
  (forall h fd, env h (init_connection fd) = 0) ->
  (forall h c, is_setter c = true -> env h c = 0) ->
  Getopt.rets s = done ++ r :: rest ->
  forallb passes (Getopt.rets s) = true ->
  Getopt.operands s = [a] ->
  map (setter_call sock) done = map Some cs ->
  invalid_setting r = true ->
  exists r1 r2 rc w,
    run argv = (Done 1, w)
    /\ trace w
       = timeouts sock r1 r2
         ++ [Call (connect sock (address_of a)) 0;
             Call (init_connection sock) 0]
         ++ map (fun c => Call c 0) cs
         ++ [rejection r; Call (close sock) rc].
Proof.
  intros s sock Hopt Hconn Hinit Hset Hrets Hp Hops Hdone Hr.
  destruct (accepting_run argv a Hopt Hconn Hinit Hset Hp Hops)
    as (r1 & r2 & rc & w & Hrun & Ht).
  fold s sock in Hrun, Ht. rewrite Hrets in Hrun, Ht.
  rewrite (expected_session_rejects sock done cs r rest Hdone
             (invalid_setting_no_call sock r Hr)) in Hrun, Ht.
  cbn [fst snd] in Hrun, Ht.
  exists r1, r2, rc, w. split; [exact Hrun|].
  rewrite Ht. now rewrite <- !app_assoc.
Qed.


(* ---------------------------------------------------------------- *)
(** *** More on the handlers and on the option tables *)

(** X12.  For every argument, [do_set_auto_off] calls [set_auto_off]
    exactly when the argument is the string [never], then with
    [AO_NEVER], and returns the result of the setter; for every other
    argument it returns 1 after its message.  Neither the value [atoi]
    gives nor the values of the members of [enum AutoOff] matter. *)
Theorem do_set_auto_off_accepts_never_only sock arg w :
  do_set_auto_off sock (Some arg) w =
    if cstr_eqb (c_str arg) (lit "never")
    then
      let status := env (trace w) (set_auto_off sock (AutoOff_value AO_NEVER)) in
      (Done status,
       emit (Call (set_auto_off sock (AutoOff_value AO_NEVER)) status) w)
    else
      (Done 1,
       emit (Stderr "Invalid auto-off argument: %s\n" [arg_str (Some arg)]) w).
Proof.
  rewrite do_set_auto_off_never_only.
  destruct (cstr_eqb (c_str arg) (lit "never")); reflexivity.
Qed.

(** X13.  The noise-cancelling and prompt-language handlers decide on the
    global [optarg]: called in the same world with two different
    parameters, each returns the same status and makes the same setter
    call.  The parameter only appears in the message of a rejection. *)
Theorem handlers_ignore_parameter sock o w arg1 arg2 :
  optarg w = Some o ->
  let nc1 := do_set_noise_cancelling sock arg1 w in
  let nc2 := do_set_noise_cancelling sock arg2 w in
  let pl1 := do_set_prompt_language sock arg1 w in
  let pl2 := do_set_prompt_language sock arg2 w in
  fst nc1 = fst nc2
  /\ setter_calls (trace (snd nc1)) = setter_calls (trace (snd nc2))
  /\ fst pl1 = fst pl2
  /\ setter_calls (trace (snd pl1)) = setter_calls (trace (snd pl2)).
Proof.
  intros Ho nc1 nc2 pl1 pl2. subst nc1 nc2 pl1 pl2.
  rewrite !(do_set_noise_cancelling_table sock _ o w Ho).
  rewrite !(do_set_prompt_language_table sock _ o w Ho).
  destruct (lookup (c_str o) nc_table), (lookup (c_str o) pl_table);
    cbn [fst snd]; rewrite ?trace_emit, ?setter_calls_app;
    repeat split; reflexivity.
Qed.

(** X14.  Each of the four settings can be given in four spellings,
    [-nVALUE], [-n VALUE], [--name=VALUE] and [--name VALUE]: for every
    non-empty value, the tables of [main] make [getopt_long] return the
    same option letter with the same argument for all four. *)
Theorem option_spellings_agree p value :
  In p long_opt ->
  Getopt.has_arg p = Getopt.required_argument ->
  value <> [] ->
  ~ In NUL value ->
  Forall
    (fun args =>
       Getopt.rets (Getopt.scan short_opt long_opt args)
       = [Getopt.opt (Getopt.val p) (Some value)])
    (spellings p value).
Proof.
  intros Hp Harg Hne Hnul.
  pose proof (c_str_no_NUL value Hnul) as Hc.
  destruct value as [|v value]; [congruence|].
  assert (Hv : (v =? NUL)%char = false).
  { apply Ascii.eqb_neq. intros ->. apply Hnul. now left. }
  assert (Hc' : c_str value = value).
  { simpl in Hc. rewrite Hv in Hc. now injection Hc. }
  simpl in Hp.
  destruct Hp as [<-|[<-|[<-|[<-|[<-|[]]]]]]; [discriminate| | | |];
    unfold spellings, lit; cbn [Getopt.name Getopt.val list_ascii_of_string app];
    repeat constructor.
  all: cbn; rewrite ?Hv;
    repeat match goal with
      | |- context [Getopt.short_lookup short_opt ?c] =>
          let r := eval vm_compute in (Getopt.short_lookup short_opt c) in
          change (Getopt.short_lookup short_opt c) with r
      | |- context [Getopt.find_long long_opt ?n] =>
          let r := eval vm_compute in (Getopt.find_long long_opt n) in
          change (Getopt.find_long long_opt n) with r
      end;
    cbn; rewrite ?Hc'; reflexivity.
Qed.


Lemma In_setter_calls c z t :
  In (Call c z) t -> is_setter c = true -> In c (setter_calls t).
Proof.
  intros Hin Hc. induction t as [|e t IH]; [destruct Hin|].
  destruct Hin as [->|Hin].
  - simpl. rewrite Hc. now left.
  - specialize (IH Hin). destruct e as [c' z'| | | |]; simpl; try exact IH.
    destruct (is_setter c'); [now right|exact IH].
Qed.

(** X15.  In every run of [main], every array passed to [set_name] has
    [MAX_NAME_LEN + 1] bytes, holds a string of at most [MAX_NAME_LEN]
    characters and ends in NUL: the protocol layer never gets an
    unterminated or overlong name. *)
Theorem set_name_arrays_terminated argv sock buffer z :
  In (Call (set_name sock buffer) z) (trace (snd (run argv))) ->
  List.length buffer = (MAX_NAME_LEN + 1)%nat
  /\ (strlen buffer <= MAX_NAME_LEN)%nat
  /\ nth MAX_NAME_LEN buffer "x"%char = NUL.
Proof.
  intros Hin. apply In_setter_calls in Hin; [|reflexivity].
  destruct (run_setter_calls argv) as (sock' & j & H).
  apply (in_map Some) in Hin. rewrite H in Hin.
  apply in_map_iff in Hin as (r & Hr & _). clear H.
  destruct r as [letter [a|]|d]; cbn [setter_call] in Hr; try discriminate.
  destruct (letter =? "n")%char.
  - destruct (Nat.leb_spec (strlen a) MAX_NAME_LEN) as [Hl|_];
      [|discriminate].
    injection Hr as _ <-. split; [now apply name_array_length|]. split.
    + unfold strlen at 1. now rewrite name_array_c_str.
    + unfold name_array, strlen in *.
      rewrite app_nth2 by lia. apply nth_repeat_lt. lia.
  - destruct (letter =? "c")%char.
    { destruct (lookup (c_str a) nc_table); discriminate. }
    destruct (letter =? "o")%char.
    { destruct (cstr_eqb (c_str a) (lit "never")); discriminate. }
    destruct (letter =? "l")%char; [|discriminate].
    destruct (lookup (c_str a) pl_table); discriminate.
Qed.

End Properties.

(* ================================================================== *)
(** ** Concrete runs *)

Import CString.

(** Options in both forms, before and after the address. *)
Example run_all_settings :
  sample_run obliging
    ["based-connect"; "-c"; "low"; "00:11:22:33:44:55"; "--auto-off=never";
     "-lfr"; "--name"; "Bob"]%string
  = (Done 0,
     sample_start
     ++ [Call (set_noise_cancelling 3 NC_LOW) 0;
         Call (set_auto_off 3 0) 0;
         Call (set_prompt_language 3 PL_FR) 0;
         Call (set_name 3 (lit "Bob" ++ repeat NUL 29)) 0;
         Call (close 3) 0]).
Proof. vm_compute. reflexivity. Qed.

(** The first setter that fails ends the session. *)
Example run_stops_at_failure :
  sample_run stubborn
    ["based-connect"; "-c"; "low"; "-l"; "fr"; "00:11:22:33:44:55"]%string
  = (Done (-1),
     sample_start
     ++ [Call (set_noise_cancelling 3 NC_LOW) (-1);
         Perror "Error trying to change setting";
         Call (close 3) 0]).
Proof. vm_compute. reflexivity. Qed.

(** A minute count is turned down although the usage text offers it. *)
Example run_auto_off_minutes :
  sample_run obliging
    ["based-connect"; "-o"; "20"; "00:11:22:33:44:55"]%string
  = (Done 1,
     sample_start
     ++ [Stderr "Invalid auto-off argument: %s\n" [arg_str (Some (lit "20"))];
         Call (close 3) 0]).
Proof. vm_compute. reflexivity. Qed.

(** An unknown option ends the run before the connection. *)
Example run_unknown_option :
  sample_run obliging ["based-connect"; "-x"; "00:11:22:33:44:55"]%string
  = (Done 1, timeouts 3 0 0 ++ [GetoptDiag Getopt.unrecognized]).
Proof. vm_compute. reflexivity. Qed.

(** An invalid language: the level before it is applied, nothing after. *)
Example run_bogus_language :
  sample_run obliging
    ["based-connect"; "-c"; "high"; "-l"; "xx"; "-o"; "never";
     "00:11:22:33:44:55"]%string
  = (Done 1,
     sample_start
     ++ [Call (set_noise_cancelling 3 NC_HIGH) 0;
         Stderr "Invalid prompt language argument: %s\n"
           [arg_str (Some (lit "xx"))];
         Call (close 3) 0]).
Proof. vm_compute. reflexivity. Qed.

(** The help option: the socket is created and left open. *)
Example run_help :
  sample_run obliging ["based-connect"; "-h"]%string
  = (Done 0,
     timeouts 3 0 0
     ++ [Stdout usage_text [arg_str (Some (lit "based-connect"))]]).
Proof. vm_compute. reflexivity. Qed.

(** With [POSIXLY_CORRECT] set, options placed before the address are
    applied as without it. *)
Example run_in_order_options_first :
  sample_run_in_order obliging
    ["based-connect"; "-c"; "low"; "00:11:22:33:44:55"]%string
  = sample_run obliging
      ["based-connect"; "-c"; "low"; "00:11:22:33:44:55"]%string.
Proof. vm_compute. reflexivity. Qed.

(** With [POSIXLY_CORRECT] set, what follows the address is an operand:
    an option there makes the address count wrong. *)
Example run_in_order_option_last :
  sample_run_in_order obliging
    ["based-connect"; "00:11:22:33:44:55"; "-c"; "low"]%string
  = (Done 1,
     timeouts 3 0 0
     ++ [Stderr "Only one address argument may be given.\n" [];
         Stdout usage_text [arg_str (Some (lit "based-connect"))]])
  /\ sample_run obliging
       ["based-connect"; "00:11:22:33:44:55"; "-c"; "low"]%string
     = (Done 0,
        sample_start
        ++ [Call (set_noise_cancelling 3 NC_LOW) 0; Call (close 3) 0]).
Proof. split; vm_compute; reflexivity. Qed.

(** The same for [-h] and for an unknown option behind the address. *)
Example run_in_order_help_last :
  sample_run_in_order obliging
    ["based-connect"; "00:11:22:33:44:55"; "-h"]%string
  = (Done 1,
     timeouts 3 0 0
     ++ [Stderr "Only one address argument may be given.\n" [];
         Stdout usage_text [arg_str (Some (lit "based-connect"))]])
  /\ sample_run_in_order obliging
       ["based-connect"; "00:11:22:33:44:55"; "-x"]%string
     = sample_run_in_order obliging
         ["based-connect"; "00:11:22:33:44:55"; "-h"]%string.
Proof. split; vm_compute; reflexivity. Qed.

Lemma do_set_name_drops_long_name_witness :
  (@MAX_NAME_LEN sample_header < strlen long_name)%nat /\
  (@do_set_name sample_header obliging 3 (Some long_name) initial =
     (Done 1,
      emit (Stderr "Name exceeds %d character maximum. Truncating.\n"
              [arg_int (Z.of_nat (@MAX_NAME_LEN sample_header))]) initial)
   /\ setter_calls
        (trace (snd (@do_set_name sample_header obliging 3
                       (Some long_name) initial)))
      = setter_calls (trace initial)).
Proof.
  split.
  - vm_compute. lia.
  - apply (@do_set_name_drops_long_name sample_header obliging 3
             long_name initial).
    vm_compute. lia.
Defined.

Lemma do_set_name_passes_short_name_witness :
  (strlen short_name <= @MAX_NAME_LEN sample_header)%nat /\
  (let buffer :=
     c_str short_name
     ++ repeat NUL (@MAX_NAME_LEN sample_header + 1 - strlen short_name) in
   let status := @env obliging (trace initial) (set_name 3 buffer) in
   @do_set_name sample_header obliging 3 (Some short_name) initial
     = (Done status, emit (Call (set_name 3 buffer) status) initial)
   /\ List.length buffer = (@MAX_NAME_LEN sample_header + 1)%nat
   /\ (1 <= @MAX_NAME_LEN sample_header + 1 - strlen short_name)%nat
   /\ c_str buffer = c_str short_name).
Proof.
  split.
  - vm_compute. lia.
  - apply (@do_set_name_passes_short_name sample_header obliging 3
             short_name initial).
    vm_compute. lia.
Defined.

Lemma handlers_follow_tables_witness :
  optarg (after_getopt (lit "off")) = Some (lit "off") /\
  (@do_set_noise_cancelling obliging 3 (Some (lit "off"))
     (after_getopt (lit "off"))
   = match lookup (c_str (lit "off")) nc_table with
     | Some nc =>
         let status := @env obliging [] (set_noise_cancelling 3 nc) in
         (Done status,
          emit (Call (set_noise_cancelling 3 nc) status)
            (after_getopt (lit "off")))
     | None =>
         (Done 1,
          emit (Stderr "Invalid noise cancelling argument: %s\n"
                  [arg_str (Some (lit "off"))]) (after_getopt (lit "off")))
     end
   /\
   @do_set_prompt_language obliging 3 (Some (lit "off"))
     (after_getopt (lit "off"))
   = match lookup (c_str (lit "off")) pl_table with
     | Some pl =>
         let status := @env obliging [] (set_prompt_language 3 pl) in
         (Done status,
          emit (Call (set_prompt_language 3 pl) status)
            (after_getopt (lit "off")))
     | None =>
         (Done 1,
          emit (Stderr "Invalid prompt language argument: %s\n"
                  [arg_str (Some (lit "off"))]) (after_getopt (lit "off")))
     end).
Proof.
  split.
  - reflexivity.
  - apply (@handlers_follow_tables obliging 3 (lit "off")
             (after_getopt (lit "off"))).
    reflexivity.
Defined.

Lemma obliging_timeouts :
  forall h sock level name tv,
    0 <= @env obliging h (setsockopt sock level name tv).
Proof. intros. simpl. lia. Defined.

Lemma invalid_setting_rejected_in_session_witness :
  (forall h fd level name tv,
      0 <= @env obliging h (setsockopt fd level name tv))
  /\ (forall h fd address, @env obliging h (connect fd address) = 0)
  /\ (forall h fd, @env obliging h (init_connection fd) = 0)
  /\ (forall h c, is_setter c = true -> @env obliging h c = 0)
  /\ Getopt.rets
       (@Getopt.scan permuting short_opt long_opt (tl bogus_language_argv))
     = [Getopt.opt "c" (Some (lit "high"))]
       ++ Getopt.opt "l" (Some (lit "xx"))
       :: [Getopt.opt "o" (Some (lit "never"))]
  /\ forallb passes
       (Getopt.rets
          (@Getopt.scan permuting short_opt long_opt
             (tl bogus_language_argv)))
     = true
  /\ Getopt.operands
       (@Getopt.scan permuting short_opt long_opt (tl bogus_language_argv))
     = [lit "00:11:22:33:44:55"]
  /\ map (@setter_call sample_header 3) [Getopt.opt "c" (Some (lit "high"))]
     = map Some [set_noise_cancelling 3 NC_HIGH]
  /\ invalid_setting (Getopt.opt "l" (Some (lit "xx"))) = true
  /\ exists r1 r2 rc w,
       @run sample_header obliging permuting bogus_language_argv
       = (Done 1, w)
       /\ trace w
          = timeouts 3 r1 r2
            ++ [Call (connect 3
                        (@address_of sample_header (lit "00:11:22:33:44:55")))
                  0;
                Call (init_connection 3) 0]
            ++ map (fun c => Call c 0) [set_noise_cancelling 3 NC_HIGH]
            ++ [@rejection sample_header (Getopt.opt "l" (Some (lit "xx")));
                Call (close 3) rc].
Proof.
  split; [exact obliging_timeouts|].
  split; [intros; reflexivity|].
  split; [intros; reflexivity|].
  split; [intros h c Hc; destruct c; try discriminate; reflexivity|].
  split; [reflexivity|]. split; [reflexivity|]. split; [reflexivity|].
  split; [reflexivity|]. split; [reflexivity|].
  apply (@invalid_setting_rejected_in_session sample_header obliging
           permuting bogus_language_argv (lit "00:11:22:33:44:55")
           [Getopt.opt "c" (Some (lit "high"))]
           [set_noise_cancelling 3 NC_HIGH]
           (Getopt.opt "l" (Some (lit "xx")))
           [Getopt.opt "o" (Some (lit "never"))]).
  - exact obliging_timeouts.
  - intros; reflexivity.
  - intros; reflexivity.
  - intros h c Hc; destruct c; try discriminate; reflexivity.
  - reflexivity.
  - reflexivity.
  - reflexivity.
  - reflexivity.
  - reflexivity.
Defined.

Lemma address_only_run_witness :
  Getopt.is_nonoption (lit "00:11:22:33:44:55") = true
  /\ (forall h sock level name tv,
         0 <= @env obliging h (setsockopt sock level name tv))
  /\ (forall h sock a, @env obliging h (connect sock a) = 0)
  /\ exists sock r1 r2 status rc w,
       @run sample_header obliging permuting
         [lit "based-connect"; lit "00:11:22:33:44:55"]
       = (Done status, w) /\
       trace w =
         [Call (socket AF_BLUETOOTH SOCK_STREAM BTPROTO_RFCOMM) sock;
          Call (setsockopt sock SOL_SOCKET SO_SNDTIMEO send_timeout) r1;
          Call (setsockopt sock SOL_SOCKET SO_RCVTIMEO recieve_timeout) r2;
          Call (connect sock {| rc_family := AF_BLUETOOTH;
                                rc_bdaddr := str2ba (lit "00:11:22:33:44:55");
                                rc_channel := @BOSE_CHANNEL sample_header |}) 0;
          Call (init_connection sock) status]
         ++ (if status <? 0
             then [Perror "Error trying to change setting"] else [])
         ++ [Call (close sock) rc].
Proof.
  split; [reflexivity|].
  split; [intros; simpl; lia|].
  split; [intros; reflexivity|].
  apply (@address_only_run sample_header obliging permuting
           (lit "based-connect") (lit "00:11:22:33:44:55")).
  - reflexivity.
  - intros; simpl; lia.
  - intros; reflexivity.
Defined.

(** Witnesses of the further properties. *)

Lemma failure_status_returned_witness :
  @run sample_header stubborn permuting settings_argv
    = (Done (-1), final_world stubborn settings_argv)
  /\ In (Call (set_noise_cancelling 3 NC_LOW) (-1))
       (trace (final_world stubborn settings_argv))
  /\ is_protocol (set_noise_cancelling 3 NC_LOW) = true
  /\ -1 <> 0
  /\ -1 = -1.
Proof.
  assert (H1 : @run sample_header stubborn permuting settings_argv
               = (Done (-1), final_world stubborn settings_argv))
    by (vm_compute; reflexivity).
  assert (H2 : In (Call (set_noise_cancelling 3 NC_LOW) (-1))
                 (trace (final_world stubborn settings_argv)))
    by (vm_compute; tauto).
  assert (H3 : -1 <> 0) by lia.
  split; [exact H1|]. split; [exact H2|]. split; [reflexivity|].
  split; [exact H3|].
  exact (@failure_status_returned sample_header stubborn permuting settings_argv (-1)
           (final_world stubborn settings_argv)
           (set_noise_cancelling 3 NC_LOW) (-1) H1 H2 eq_refl H3).
Defined.

Lemma exit_zero_all_applied_witness :
  @run sample_header obliging permuting settings_argv
    = (Done 0, final_world obliging settings_argv)
  /\ calls is_init (trace (final_world obliging settings_argv)) = true
  /\ exists sock,
       map Some (setter_calls (trace (final_world obliging settings_argv)))
       = map (@setter_call sample_header sock)
           (Getopt.rets (@Getopt.scan permuting short_opt long_opt (tl settings_argv))).
Proof.
  assert (H1 : @run sample_header obliging permuting settings_argv
               = (Done 0, final_world obliging settings_argv))
    by (vm_compute; reflexivity).
  assert (H2 : calls is_init (trace (final_world obliging settings_argv))
               = true) by (vm_compute; reflexivity).
  split; [exact H1|]. split; [exact H2|].
  exact (@exit_zero_all_applied sample_header obliging permuting settings_argv
           (final_world obliging settings_argv) H1 H2).
Defined.

Lemma session_ends_with_close_witness :
  @run sample_header stubborn permuting settings_argv
    = (Done (-1), final_world stubborn settings_argv)
  /\ calls is_init (trace (final_world stubborn settings_argv)) = true
  /\ exists sock body rc,
       trace (final_world stubborn settings_argv) =
         Call (socket AF_BLUETOOTH SOCK_STREAM BTPROTO_RFCOMM) sock :: body
         ++ (if -1 <? 0
             then [Perror "Error trying to change setting"] else [])
         ++ [Call (close sock) rc]
       /\ calls is_close body = false
       /\ ~ In (Perror "Error trying to change setting") body.
Proof.
  assert (H1 : @run sample_header stubborn permuting settings_argv
               = (Done (-1), final_world stubborn settings_argv))
    by (vm_compute; reflexivity).
  assert (H2 : calls is_init (trace (final_world stubborn settings_argv))
               = true) by (vm_compute; reflexivity).
  split; [exact H1|]. split; [exact H2|].
  exact (@session_ends_with_close sample_header stubborn permuting settings_argv (-1)
           (final_world stubborn settings_argv) H1 H2).
Defined.


Lemma help_exits_before_connecting_witness :
  (forall h sock level name tv,
      0 <= @env obliging h (setsockopt sock level name tv))
  /\ Getopt.rets (@Getopt.scan permuting short_opt long_opt (tl help_argv))
     = [Getopt.opt "c" (Some (lit "bogus"))]
       ++ Getopt.opt "h" None :: [Getopt.err Getopt.unrecognized]
  /\ forallb passes [Getopt.opt "c" (Some (lit "bogus"))] = true
  /\ exists sock r1 r2 w,
       @run sample_header obliging permuting help_argv = (Done 0, w)
       /\ trace w
          = timeouts sock r1 r2
            ++ [Stdout usage_text [arg_str (hd_error help_argv)]].
Proof.
  split; [exact obliging_timeouts|].
  split; [reflexivity|]. split; [reflexivity|].
  apply (@help_exits_before_connecting sample_header obliging permuting help_argv
           [Getopt.opt "c" (Some (lit "bogus"))]
           [Getopt.err Getopt.unrecognized]).
  - exact obliging_timeouts.
  - reflexivity.
  - reflexivity.
Defined.

Lemma option_error_exits_witness :
  (forall h sock level name tv,
      0 <= @env obliging h (setsockopt sock level name tv))
  /\ Getopt.rets (@Getopt.scan permuting short_opt long_opt (tl ambiguous_argv))
     = [Getopt.opt "c" (Some (lit "low"))]
       ++ Getopt.err Getopt.ambiguous :: [Getopt.opt "h" None]
  /\ forallb passes [Getopt.opt "c" (Some (lit "low"))] = true
  /\ exists sock r1 r2 w,
       @run sample_header obliging permuting ambiguous_argv = (Done 1, w)
       /\ trace w = timeouts sock r1 r2 ++ [GetoptDiag Getopt.ambiguous].
Proof.
  split; [exact obliging_timeouts|].
  split; [reflexivity|]. split; [reflexivity|].
  apply (@option_error_exits sample_header obliging permuting ambiguous_argv
           [Getopt.opt "c" (Some (lit "low"))] Getopt.ambiguous
           [Getopt.opt "h" None]).
  - exact obliging_timeouts.
  - reflexivity.
  - reflexivity.
Defined.

Lemma address_count_enforced_witness :
  (forall h sock level name tv,
      0 <= @env obliging h (setsockopt sock level name tv))
  /\ forallb passes
       (Getopt.rets (@Getopt.scan permuting short_opt long_opt (tl two_addresses_argv)))
     = true
  /\ List.length
       (Getopt.operands
          (@Getopt.scan permuting short_opt long_opt (tl two_addresses_argv))) <> 1%nat
  /\ exists sock r1 r2 w,
       @run sample_header obliging permuting two_addresses_argv = (Done 1, w)
       /\ trace w
          = timeouts sock r1 r2
            ++ [Stderr
                  match
                    Getopt.operands
                      (@Getopt.scan permuting short_opt long_opt (tl two_addresses_argv))
                  with
                  | [] => "An address argument must be given.\n"
                  | _ :: _ => "Only one address argument may be given.\n"
                  end%string [];
                Stdout usage_text [arg_str (hd_error two_addresses_argv)]].
Proof.
  split; [exact obliging_timeouts|].
  split; [reflexivity|]. split; [vm_compute; lia|].
  apply (@address_count_enforced sample_header obliging permuting two_addresses_argv).
  - exact obliging_timeouts.
  - reflexivity.
  - vm_compute. lia.
Defined.

Lemma connect_failure_exits_witness :
  (forall h sock level name tv,
      0 <= @env unreachable h (setsockopt sock level name tv))
  /\ (forall h sock address, @env unreachable h (connect sock address) <> 0)
  /\ forallb passes
       (Getopt.rets (@Getopt.scan permuting short_opt long_opt (tl settings_argv)))
     = true
  /\ Getopt.operands (@Getopt.scan permuting short_opt long_opt (tl settings_argv))
     = [lit "00:11:22:33:44:55"]
  /\ exists sock r1 r2 rc w,
       rc <> 0
       /\ @run sample_header unreachable permuting settings_argv = (Done 1, w)
       /\ trace w
          = timeouts sock r1 r2
            ++ [Call (connect sock
                        (@address_of sample_header (lit "00:11:22:33:44:55")))
                  rc;
                Perror "Could not connect to Bluetooth device"].
Proof.
  split; [intros; simpl; lia|].
  split; [intros; simpl; lia|].
  split; [reflexivity|]. split; [reflexivity|].
  apply (@connect_failure_exits sample_header unreachable permuting settings_argv
           (lit "00:11:22:33:44:55")).
  - intros; simpl; lia.
  - intros; simpl; lia.
  - reflexivity.
  - reflexivity.
Defined.

Lemma handshake_failure_skips_settings_witness :
  (forall h sock level name tv,
      0 <= @env mute h (setsockopt sock level name tv))
  /\ (forall h sock address, @env mute h (connect sock address) = 0)
  /\ (forall h sock, @env mute h (init_connection sock) <> 0)
  /\ forallb passes
       (Getopt.rets (@Getopt.scan permuting short_opt long_opt (tl settings_argv)))
     = true
  /\ Getopt.operands (@Getopt.scan permuting short_opt long_opt (tl settings_argv))
     = [lit "00:11:22:33:44:55"]
  /\ exists sock r1 r2 status rc w,
       status <> 0
       /\ @run sample_header mute permuting settings_argv = (Done status, w)
       /\ trace w
          = timeouts sock r1 r2
            ++ [Call (connect sock
                        (@address_of sample_header (lit "00:11:22:33:44:55")))
                  0;
                Call (init_connection sock) status]
            ++ (if status <? 0
                then [Perror "Error trying to change setting"] else [])
            ++ [Call (close sock) rc].
Proof.
  split; [intros; simpl; lia|].
  split; [intros; reflexivity|].
  split; [intros; simpl; lia|].
  split; [reflexivity|]. split; [reflexivity|].
  apply (@handshake_failure_skips_settings sample_header mute permuting settings_argv
           (lit "00:11:22:33:44:55")).
  - intros; simpl; lia.
  - intros; reflexivity.
  - intros; simpl; lia.
  - reflexivity.
  - reflexivity.
Defined.

Lemma obliging_headset_run_witness :
  (forall h sock level name tv,
      0 <= @env obliging h (setsockopt sock level name tv))
  /\ (forall h sock address, @env obliging h (connect sock address) = 0)
  /\ (forall h sock, @env obliging h (init_connection sock) = 0)
  /\ (forall h c, is_setter c = true -> @env obliging h c = 0)
  /\ forallb passes
       (Getopt.rets (@Getopt.scan permuting short_opt long_opt (tl bogus_language_argv)))
     = true
  /\ Getopt.operands (@Getopt.scan permuting short_opt long_opt (tl bogus_language_argv))
     = [lit "00:11:22:33:44:55"]
  /\ exists sock r1 r2 rc w,
       @run sample_header obliging permuting bogus_language_argv
       = (Done (snd (@expected_session sample_header sock
                       (Getopt.rets
                          (@Getopt.scan permuting short_opt long_opt
                             (tl bogus_language_argv))))), w)
       /\ trace w
          = timeouts sock r1 r2
            ++ [Call (connect sock
                        (@address_of sample_header (lit "00:11:22:33:44:55")))
                  0;
                Call (init_connection sock) 0]
            ++ fst (@expected_session sample_header sock
                      (Getopt.rets
                         (@Getopt.scan permuting short_opt long_opt
                            (tl bogus_language_argv))))
            ++ [Call (close sock) rc].
Proof.
  split; [exact obliging_timeouts|].
  split; [intros; reflexivity|].
  split; [intros; reflexivity|].
  split; [intros h c Hc; destruct c; try discriminate; reflexivity|].
  split; [reflexivity|]. split; [reflexivity|].
  apply (@obliging_headset_run sample_header obliging permuting bogus_language_argv
           (lit "00:11:22:33:44:55")).
  - exact obliging_timeouts.
  - intros; reflexivity.
  - intros; reflexivity.
  - intros h c Hc; destruct c; try discriminate; reflexivity.
  - reflexivity.
  - reflexivity.
Defined.

(** What the session of that run is expected to be. *)
Example expected_session_bogus_language :
  @expected_session sample_header 3
    (Getopt.rets (@Getopt.scan permuting short_opt long_opt (tl bogus_language_argv)))
  = ([Call (set_noise_cancelling 3 NC_HIGH) 0;
      Stderr "Invalid prompt language argument: %s\n"
        [arg_str (Some (lit "xx"))]],
     1).
Proof. vm_compute. reflexivity. Qed.

Lemma handlers_ignore_parameter_witness :
  optarg (after_getopt (lit "high")) = Some (lit "high")
  /\ (let nc1 := @do_set_noise_cancelling obliging 3 (Some (lit "bogus"))
                   (after_getopt (lit "high")) in
      let nc2 := @do_set_noise_cancelling obliging 3 None
                   (after_getopt (lit "high")) in
      let pl1 := @do_set_prompt_language obliging 3 (Some (lit "bogus"))
                   (after_getopt (lit "high")) in
      let pl2 := @do_set_prompt_language obliging 3 None
                   (after_getopt (lit "high")) in
      fst nc1 = fst nc2
      /\ setter_calls (trace (snd nc1)) = setter_calls (trace (snd nc2))
      /\ fst pl1 = fst pl2
      /\ setter_calls (trace (snd pl1)) = setter_calls (trace (snd pl2))).
Proof.
  split; [reflexivity|].
  apply (@handlers_ignore_parameter obliging 3 (lit "high")
           (after_getopt (lit "high")) (Some (lit "bogus")) None).
  reflexivity.
Defined.

Lemma option_spellings_agree_witness :
  In {| Getopt.name := lit "auto-off";
        Getopt.has_arg := Getopt.required_argument;
        Getopt.val := "o" |} long_opt
  /\ Getopt.required_argument = Getopt.required_argument
  /\ lit "never" <> []
  /\ ~ In NUL (lit "never")
  /\ Forall
       (fun args =>
          Getopt.rets (@Getopt.scan permuting short_opt long_opt args)
          = [Getopt.opt "o" (Some (lit "never"))])
       (spellings {| Getopt.name := lit "auto-off";
                     Getopt.has_arg := Getopt.required_argument;
                     Getopt.val := "o" |} (lit "never")).
Proof.
  assert (H1 : In {| Getopt.name := lit "auto-off";
                     Getopt.has_arg := Getopt.required_argument;
                     Getopt.val := "o" |} long_opt)
    by (simpl; tauto).
  assert (H2 : lit "never" <> []) by discriminate.
  assert (H3 : ~ In NUL (lit "never")).
  { vm_compute. intros H. repeat destruct H as [H|H]; try discriminate H.
    exact H. }
  split; [exact H1|]. split; [reflexivity|]. split; [exact H2|].
  split; [exact H3|].
  exact (option_spellings_agree _ (lit "never") H1 eq_refl H2 H3).
Defined.

Lemma set_name_arrays_terminated_witness :
  In (Call (set_name 3 (lit "Bob" ++ repeat NUL 29)) 0)
    (trace (snd (@run sample_header obliging permuting settings_argv)))
  /\ (List.length (lit "Bob" ++ repeat NUL 29)
      = (@MAX_NAME_LEN sample_header + 1)%nat
      /\ (strlen (lit "Bob" ++ repeat NUL 29) <= @MAX_NAME_LEN sample_header)%nat
      /\ nth (@MAX_NAME_LEN sample_header) (lit "Bob" ++ repeat NUL 29)
           "x"%char = NUL).
Proof.
  assert (H : In (Call (set_name 3 (lit "Bob" ++ repeat NUL 29)) 0)
                (trace (snd (@run sample_header obliging permuting settings_argv))))
    by (vm_compute; tauto).
  split; [exact H|].
  exact (@set_name_arrays_terminated sample_header obliging permuting settings_argv 3
           (lit "Bob" ++ repeat NUL 29) 0 H).
Defined.
